(** * The GitHub Actions cache storage backend

    A shallow embedding of
    [src/plugins/remote-cache/storage/github-actions-cache.ts] and the
    properties of its lookup client, its factory and its upload sink.

    Conventions of the embedding.
    - JavaScript numbers that the code computes with are byte counts and
      offsets; they are integers far below 2^53 and are modelled in [Z].
      The one division, [this.data.length / CHUNK_SIZE], divides by a power
      of two and is therefore exact in double precision; it is modelled in
      [Q] and [Math.ceil] is [Qceiling].
    - Byte buffers are [list byte]; strings are [string].
    - A promise is a finite interaction tree, [Async]: it is fulfilled,
      rejected, or awaits the answer to one [fetch] call.  The remote
      service is an oracle giving the outcome of the n-th call.
    - Calls to [logger.info] are not modelled. *)

From Stdlib Require Import ZArith QArith Qround List String Ascii Bool Lia
  DecimalString.
From Stdlib Require Import Strings.Byte.
Import ListNotations.
#[local] Set Warnings "-register-all".
Local Open Scope string_scope.
Local Open Scope Z_scope.

(** ** JavaScript values read from response bodies *)

(** What [JSON.parse] produces.  Only whether a number is zero matters here,
    so numbers are integers.  An object lists its members in textual
    order. *)
Inductive Json : Type :=
| JNull
| JBool (b : bool)
| JNumber (z : Z)
| JString (s : string)
| JArray (items : list Json)
| JObject (members : list (string * Json)).

(** A JavaScript value: [None] is [undefined]. *)
Definition Value : Type := option Json.
Definition undefined : Value := None.
Definition str (s : string) : Value := Some (JString s).

(** An error object made by the runtime or by node-fetch (TypeError,
    SyntaxError, FetchError, ...): never an instance of a class of this
    module. *)
Record Thrown : Type := { thrown_name : string; thrown_message : string }.

(** The errors the module handles.  [NotFoundError] is
    [class NotFoundError extends Error {}], built with no message. *)
Inductive JsError : Type :=
| Error (message : string)
| NotFoundError
| Foreign (t : Thrown).

(** [err instanceof NotFoundError] *)
Definition instanceof_NotFoundError (err : JsError) : bool :=
  match err with
  | NotFoundError => true
  | _ => false
  end.

(** Truthiness, as [!v] tests it. *)
Definition truthy (v : Value) : bool :=
  match v with
  | None => false
  | Some JNull => false
  | Some (JBool b) => b
  | Some (JNumber z) => negb (z =? 0)
  | Some (JString s) => negb (s =? "")%string
  | Some (JArray _) => true
  | Some (JObject _) => true
  end.

(** The member a parsed object holds under [name]: of repeated members
    [JSON.parse] keeps the last. *)
Fixpoint member (name : string) (members : list (string * Json)) : Value :=
  match members with
  | [] => undefined
  | (k, v) :: rest =>
      match member name rest with
      | Some w => Some w
      | None => if (k =? name)%string then Some v else undefined
      end
  end.

(** [body.name] for a name that no prototype defines ([archiveLocation],
    [cacheId]): reading it off [null] throws a TypeError, off an object gives
    the member, off any other value gives [undefined]. *)
Definition property (body : Json) (name : string) : Thrown + Value :=
  match body with
  | JNull =>
      inl {| thrown_name := "TypeError";
             thrown_message :=
               "Cannot read properties of null (reading '" ++ name ++ "')" |}
  | JObject members => inr (member name members)
  | _ => inr undefined
  end.

(** ** HTTP through node-fetch *)

Inductive Method : Type := GET | POST | PATCH.

(** A request body: none, the bytes of a buffer, or the text
    [JSON.stringify] makes of a value. *)
Inductive Payload : Type :=
| NoBody
| Octets (bytes : list byte)
| Stringified (j : Json).

(** One [fetch(input, init)] call.  Headers are in the order the object
    literal lists them. *)
Record Request : Type := {
  req_input : Value;
  req_method : Method;
  req_headers : list (string * string);
  req_body : Payload
}.

(** A response as far as the code reads it: the status, what [res.text()]
    and [res.json()] settle to, and the content of [res.body] ([None] when
    the response has no body). *)
Record Response : Type := {
  status : Z;
  res_text : Thrown + string;
  res_json : Thrown + Json;
  res_body : option (list byte)
}.

(** node-fetch's [res.ok]: the status is in the range 200-299. *)
Definition ok (res : Response) : bool :=
  (200 <=? status res) && (status res <=? 299).

(** How a [fetch] call settles: with a response, whatever its status, or
    with a rejection (network failure, unusable URL). *)
Inductive FetchResult : Type :=
| Fulfilled (res : Response)
| Rejected (t : Thrown).

(** ** Promises *)

Inductive Async (A : Type) : Type :=
| Resolve (a : A)
| Reject (e : JsError)
| Await (req : Request) (k : FetchResult -> Async A).

Arguments Resolve {A} a.
Arguments Reject {A} e.
Arguments Await {A} req k.

Fixpoint bind {A B : Type} (p : Async A) (f : A -> Async B) : Async B :=
  match p with
  | Resolve a => f a
  | Reject e => Reject e
  | Await req k => Await req (fun r => bind (k r) f)
  end.

Declare Scope async_scope.
Delimit Scope async_scope with async.
Bind Scope async_scope with Async.
Notation "x <- p ;; q" := (bind p (fun x => q))
  (at level 61, p at next level, right associativity) : async_scope.
Notation "p ;; q" := (bind p (fun _ => q))
  (at level 61, right associativity) : async_scope.
Local Open Scope async_scope.

(** [throw e] inside an async function. *)
Definition throw {A : Type} (e : JsError) : Async A := Reject e.

(** [await fetch(...)] *)
Definition fetch (req : Request) : Async Response :=
  Await req (fun r =>
    match r with
    | Fulfilled res => Resolve res
    | Rejected t => Reject (Foreign t)
    end).

(** Awaiting something the runtime computes and that may throw. *)
Definition settled {A : Type} (r : Thrown + A) : Async A :=
  match r with
  | inl t => Reject (Foreign t)
  | inr a => Resolve a
  end.

(** A synchronous function that returns or throws, seen as a promise. *)
Definition sync {A : Type} (r : JsError + A) : Async A :=
  match r with
  | inl e => Reject e
  | inr a => Resolve a
  end.

(** [p] with its outcome made a value, as [then] and [catch] handlers see
    it. *)
Fixpoint outcome {A : Type} (p : Async A) : Async (JsError + A) :=
  match p with
  | Resolve a => Resolve (inr a)
  | Reject e => Resolve (inl e)
  | Await req k => Await req (fun r => outcome (k r))
  end.

(** The service: the outcome of the n-th [fetch] call. *)
Definition Replies : Type := nat -> FetchResult.

(** Running a promise against the service from call number [n]: the
    requests issued, in order, and how the promise settles.  Each request is
    issued only once the previous one has been answered. *)
Fixpoint run {A : Type} (p : Async A) (replies : Replies) (n : nat)
  : list Request * (JsError + A) :=
  match p with
  | Resolve a => ([], inr a)
  | Reject e => ([], inl e)
  | Await req k =>
      let (trace, r) := run (k (replies n)) replies (S n) in
      (req :: trace, r)
  end.

(** A callback handed in by the caller: [None] when the call returns,
    [Some e] when it throws [e]. *)
Definition Callback (Args : Type) : Type := Args -> option JsError.

(** What a promise chain ending in callbacks did: the calls made, in order,
    and the rejection nobody handled, if any. *)
Record Chain (Args : Type) : Type := {
  calls : list Args;
  unhandled : option JsError
}.
Arguments calls {Args} c.
Arguments unhandled {Args} c.

(** [p.then((x) => cb(onFulfilled x)).catch((err) => cb(onRejected err))]:
    the [catch] handler also receives what the [then] handler throws. *)
Definition then_catch {A Args : Type} (p : Async A) (cb : Callback Args)
    (onFulfilled : A -> Args) (onRejected : JsError -> Args)
  : Async (Chain Args) :=
  r <- outcome p ;;
  match r with
  | inr a =>
      match cb (onFulfilled a) with
      | None => Resolve {| calls := [onFulfilled a]; unhandled := None |}
      | Some err =>
          Resolve {| calls := [onFulfilled a; onRejected err];
                     unhandled := cb (onRejected err) |}
      end
  | inl err =>
      Resolve {| calls := [onRejected err]; unhandled := cb (onRejected err) |}
  end.

(** ** Numbers and buffers *)

(** [Math.ceil] *)
Definition Math_ceil (x : Q) : Z := Qceiling x.

(** [Math.min] *)
Definition Math_min (a b : Z) : Z := Z.min a b.

(** An integer inside a template literal. *)
Definition number_to_string (z : Z) : string :=
  NilZero.string_of_int (Z.to_int z).

(** [buf.length] *)
Definition buffer_length (buf : list byte) : Z := Z.of_nat (List.length buf).

(** [Buffer.of()] *)
Definition Buffer_of : list byte := [].

(** [Buffer.concat(list)] *)
Definition Buffer_concat (bufs : list (list byte)) : list byte :=
  List.concat bufs.

(** How [slice] reads an index: a negative one counts from the end, and
    both ends are clamped to the buffer. *)
Definition slice_index (len i : Z) : Z :=
  if i <? 0 then Z.max (len + i) 0 else Z.min i len.

(** [buf.slice(start, end)] *)
Definition slice (buf : list byte) (start end_ : Z) : list byte :=
  let len := buffer_length buf in
  let s := slice_index len start in
  let e := slice_index len end_ in
  firstn (Z.to_nat (e - s)) (skipn (Z.to_nat s) buf).

(** The indices a loop [for (let i = 0; i < n; i++)] visits. *)
Definition range (n : Z) : list Z := map Z.of_nat (seq 0 (Z.to_nat n)).

(** The loop itself, each pass awaited before the next starts; a pass that
    throws ends the loop. *)
Fixpoint for_each (indices : list Z) (body : Z -> Async unit) : Async unit :=
  match indices with
  | [] => Resolve tt
  | i :: rest => body i ;; for_each rest body
  end.

Definition VERSION : string := "10".

Definition Accept : string * string :=
  ("Accept", "application/json;api-version=6.0-preview.1").

(** ** class Upload extends Writable *)

Module Upload.

Record t : Type := {
  cacheId : Value;
  url : string;
  token : string;
  data : list byte
}.

(** [new Upload(cacheId, url, token)] *)
Definition new (cacheId : Value) (url token : string) : t :=
  {| cacheId := cacheId; url := url; token := token; data := Buffer_of |}.

(** [_write(chunk, _, callback)]: the sink after the write and the argument
    given to [callback]. *)
Definition _write (this : t) (chunk : list byte)
  : Async (t * option JsError) :=
  Resolve
    ({| cacheId := cacheId this; url := url this; token := token this;
        data := Buffer_concat [data this; chunk] |},
     None).

Definition CHUNK_SIZE : Z := 32 * 1024 * 1024.

(** [Math.ceil(this.data.length / CHUNK_SIZE)] *)
Definition chunks (this : t) : Z :=
  Math_ceil (inject_Z (buffer_length (data this)) / inject_Z CHUNK_SIZE).

(** The slice sent in pass [i] of the loop. *)
Definition chunk (this : t) (i : Z) : list byte :=
  slice (data this) (i * CHUNK_SIZE)
    (Math_min ((i + 1) * CHUNK_SIZE) (buffer_length (data this))).

(** The value of the [Content-Range] header of pass [i]. *)
Definition content_range (this : t) (i : Z) : string :=
  "bytes " ++ number_to_string (i * CHUNK_SIZE) ++ "-"
  ++ number_to_string (i * CHUNK_SIZE + buffer_length (chunk this i) - 1)
  ++ "/" ++ number_to_string (buffer_length (data this)).

Section Methods.

(** [encodeURIComponent], a built-in of the runtime. *)
Variable encodeURIComponent : Value -> string.

Definition endpoint (this : t) : Value :=
  str (url this ++ "_apis/artifactcache/caches/"
       ++ encodeURIComponent (cacheId this)).

Definition patch_request (this : t) (i : Z) : Request :=
  {| req_input := endpoint this;
     req_method := PATCH;
     req_headers :=
       [ Accept;
         ("Content-Type", "application/octet-stream");
         ("Content-Range", content_range this i);
         ("Authorization", "Bearer " ++ token this) ];
     req_body := Octets (chunk this i) |}.

Definition finalize_request (this : t) : Request :=
  {| req_input := endpoint this;
     req_method := POST;
     req_headers :=
       [ Accept;
         ("Content-Type", "application/json");
         ("Authorization", "Bearer " ++ token this) ];
     req_body :=
       Stringified (JObject [("size", JNumber (buffer_length (data this)))]) |}.

(** One pass of the loop. *)
Definition upload_chunk (this : t) (i : Z) : Async unit :=
  res <- fetch (patch_request this i) ;;
  if negb (ok res) then
    text <- settled (res_text res) ;;
    throw (Error ("Failed to patch upload range for upload: " ++ text))
  else Resolve tt.

Definition completeUpload (this : t) : Async unit :=
  for_each (range (chunks this)) (upload_chunk this) ;;
  res <- fetch (finalize_request this) ;;
  if negb (ok res) then
    text <- settled (res_text res) ;;
    throw (Error ("Failed to finalize POST for upload: " ++ text))
  else Resolve tt.

(** [_final(callback)] *)
Definition _final (this : t) (callback : Callback (option JsError))
  : Async (Chain (option JsError)) :=
  then_catch (completeUpload this) callback
    (fun _ => None) (fun err => Some err).

End Methods.

End Upload.

(** ** class GithubActionsCache *)

(** [process.env]: a variable is a string or is not set. *)
Definition Env : Type := string -> option string.

Module GithubActionsCache.

Record t : Type := { url : string; token : string }.

(** [static fromEnv()]: [!process.env.X] holds when [X] is not set or is the
    empty string. *)
Definition fromEnv (env : Env) : JsError + t :=
  match env "ACTIONS_CACHE_URL" with
  | None | Some EmptyString => inl (Error "missing ACTIONS_CACHE_URL")
  | Some url =>
      match env "ACTIONS_RUNTIME_TOKEN" with
      | None | Some EmptyString => inl (Error "missing ACTIONS_RUNTIME_TOKEN")
      | Some token => inr {| url := url; token := token |}
      end
  end.

Section Methods.

Variable encodeURIComponent : Value -> string.

Definition query_request (this : t) (keys : list string) (version : string)
  : Request :=
  {| req_input :=
       str (url this ++ "_apis/artifactcache/cache?keys="
            ++ encodeURIComponent (str (String.concat "," keys))
            ++ "&version=" ++ encodeURIComponent (str version));
     req_method := GET;
     req_headers := [ Accept; ("Authorization", "Bearer " ++ token this) ];
     req_body := NoBody |}.

Definition getMeta (this : t) (keys : list string) (version : string)
  : Async Json :=
  res <- fetch (query_request this keys version) ;;
  if negb (ok res) then throw NotFoundError
  else
    body <- settled (res_json res) ;;
    archiveLocation <- settled (property body "archiveLocation") ;;
    if negb (truthy archiveLocation) then throw NotFoundError
    else Resolve body.

(** [fetch(meta.archiveLocation)] *)
Definition blob_request (archiveLocation : Value) : Request :=
  {| req_input := archiveLocation;
     req_method := GET;
     req_headers := [];
     req_body := NoBody |}.

Definition get (this : t) (keys : list string) (version : string)
  : Async (list byte) :=
  meta <- getMeta this keys version ;;
  archiveLocation <- settled (property meta "archiveLocation") ;;
  res <- fetch (blob_request archiveLocation) ;;
  match res_body res with
  | Some body => if negb (ok res) then throw (Error "Failed to fetch blob")
                 else Resolve body
  | None => throw (Error "Failed to fetch blob")
  end.

Definition reserve_request (this : t) (key version : string) : Request :=
  {| req_input := str (url this ++ "_apis/artifactcache/caches");
     req_method := POST;
     req_headers :=
       [ Accept;
         ("Content-Type", "application/json");
         ("Authorization", "Bearer " ++ token this) ];
     req_body :=
       Stringified
         (JObject [("key", JString key); ("version", JString version)]) |}.

Definition upload (this : t) (key version : string) : Async Upload.t :=
  res <- fetch (reserve_request this key version) ;;
  if negb (ok res) then
    text <- settled (res_text res) ;;
    throw (Error text)
  else
    body <- settled (res_json res) ;;
    id <- settled (property body "cacheId") ;;
    Resolve (Upload.new id (url this) (token this)).

End Methods.

End GithubActionsCache.

(** ** createGithubActionsCache *)

(** The arguments [exists] gives its callback: [(err, exists)]. *)
Definition ExistsArgs : Type := (option JsError * option bool)%type.

Record StorageProvider : Type := {
  createReadStream : string -> Async (list byte);
  createWriteStream : string -> Async Upload.t;
  exists_ : string -> Callback ExistsArgs -> Async (Chain ExistsArgs)
}.

(** The [catch] handler of [exists]. *)
Definition exists_rejected (err : JsError) : ExistsArgs :=
  if instanceof_NotFoundError err then (None, Some false)
  else (Some err, Some false).

(** The object [createGithubActionsCache] returns, for the client [cache]
    it has built. *)
Definition storageProvider (encodeURIComponent : Value -> string)
    (cache : GithubActionsCache.t) : StorageProvider :=
  {| createReadStream := fun artifactPath =>
       GithubActionsCache.get encodeURIComponent cache [artifactPath] VERSION;
     createWriteStream := fun artifactPath =>
       GithubActionsCache.upload cache artifactPath VERSION;
     exists_ := fun artifactPath cb =>
       then_catch
         (GithubActionsCache.getMeta encodeURIComponent cache
            [artifactPath] VERSION)
         cb (fun _ => (None, Some true)) exists_rejected |}.

Definition createGithubActionsCache (encodeURIComponent : Value -> string)
    (env : Env) : JsError + StorageProvider :=
  match GithubActionsCache.fromEnv env with
  | inl err => inl err
  | inr cache => inr (storageProvider encodeURIComponent cache)
  end.

(** ** class Writable, as far as the sink relies on it *)

(** The base class hands the chunks written to the stream to [_write] one
    after the other, each once the callback of the previous one has been
    called without an error.  The result is the sink after the last write
    and the arguments the callbacks received. *)
Fixpoint write_all (this : Upload.t) (written : list (list byte))
  : Async (Upload.t * list (option JsError)) :=
  match written with
  | [] => Resolve (this, [])
  | chunk :: rest =>
      w <- Upload._write this chunk ;;
      match snd w with
      | Some err => Resolve (fst w, [Some err])
      | None =>
          ws <- write_all (fst w) rest ;;
          Resolve (fst ws, None :: snd ws)
      end
  end.

(** ** Notions used in the statements *)

(** The call was answered with a success response. *)
Definition accepted (r : FetchResult) : bool :=
  match r with
  | Fulfilled res => ok res
  | Rejected _ => false
  end.

(** The error an upload step throws on an answer that is not [accepted];
    [prefix] is the text the step puts before the response body. *)
Definition refusal (prefix : string) (r : FetchResult) : JsError :=
  match r with
  | Rejected t => Foreign t
  | Fulfilled res =>
      match res_text res with
      | inl t => Foreign t
      | inr text => Error (prefix ++ text)
      end
  end.

(** How many of the [len] answers from call [n] on are accepted before the
    first that is not. *)
Fixpoint accepted_run (replies : Replies) (n len : nat) : nat :=
  match len with
  | O => O
  | S len' =>
      if accepted (replies n) then S (accepted_run replies (S n) len') else O
  end.

(** The bytes of [buf] at the offsets [from], ..., [to - 1]. *)
Definition bytes_between (buf : list byte) (from to : Z) : list byte :=
  firstn (Z.to_nat (to - from)) (skipn (Z.to_nat from) buf).

(** The value of the header [name] of a request. *)
Fixpoint header (name : string) (headers : list (string * string))
  : option string :=
  match headers with
  | [] => None
  | (k, v) :: rest => if (k =? name)%string then Some v else header name rest
  end.

(** The requests and the settlement of a run. *)
Definition requests {A : Type} (p : Async A) (replies : Replies)
  : list Request := fst (run p replies 0).
Definition settlement {A : Type} (p : Async A) (replies : Replies)
  : JsError + A := snd (run p replies 0).

(** The calls a promise chain made to its callback. *)
Definition callbacks {Args : Type} (p : Async (Chain Args))
    (replies : Replies) : list Args :=
  match settlement p replies with
  | inr chain => calls chain
  | inl _ => []
  end.

(** An environment variable is set and not empty. *)
Definition present (env : Env) (name : string) : Prop :=
  exists value, env name = Some value /\ value <> "".

(** The requests a close issues when nothing fails: the PATCH of every
    chunk in turn, then the finalize POST. *)
Definition plan (encodeURIComponent : Value -> string) (this : Upload.t)
  : list Request :=
  (map (Upload.patch_request encodeURIComponent this)
     (range (Upload.chunks this))
   ++ [Upload.finalize_request encodeURIComponent this])%list.

(** ** Sample inputs *)

Module Sample.

(** An encoder that leaves strings as they are. *)
Definition encode (v : Value) : string :=
  match v with
  | Some (JString s) => s
  | _ => "undefined"
  end.

Definition cache : GithubActionsCache.t :=
  {| GithubActionsCache.url := "https://cache.example/";
     GithubActionsCache.token := "secret" |}.

Definition env : Env :=
  fun name =>
    if (name =? "ACTIONS_CACHE_URL")%string then Some "https://cache.example/"
    else if (name =? "ACTIONS_RUNTIME_TOKEN")%string then Some "secret"
    else None.

Definition no_json : Thrown :=
  {| thrown_name := "SyntaxError"; thrown_message := "Unexpected end of JSON input" |}.

(** 200 with a download location. *)
Definition found : Response :=
  {| status := 200;
     res_text := inr "";
     res_json :=
       inr (JObject [("archiveLocation", JString "https://blob.example/a")]);
     res_body := Some [] |}.

(** 200 with an object that has no download location. *)
Definition no_location : Response :=
  {| status := 200;
     res_text := inr "{}";
     res_json := inr (JObject []);
     res_body := Some [] |}.

(** 204 with no content. *)
Definition no_content : Response :=
  {| status := 204;
     res_text := inr "";
     res_json := inl no_json;
     res_body := Some [] |}.

Definition not_found : Response :=
  {| status := 404;
     res_text := inr "";
     res_json := inl no_json;
     res_body := Some [] |}.

Definition server_error : Response :=
  {| status := 500;
     res_text := inr "boom";
     res_json := inl no_json;
     res_body := Some [] |}.

(** 201 with a session identifier. *)
Definition reserved : Response :=
  {| status := 201;
     res_text := inr "";
     res_json := inr (JObject [("cacheId", JNumber 7)]);
     res_body := Some [] |}.

(** A service that gives every call the same answer. *)
Definition always (res : Response) : Replies := fun _ => Fulfilled res.

(** A service that gives the first call one answer and every later call
    another. *)
Definition first_then (res later : Response) : Replies :=
  fun n => match n with O => Fulfilled res | S _ => Fulfilled later end.

(** A sink that holds the three bytes of [abc]. *)
Definition abc : Upload.t :=
  {| Upload.cacheId := Some (JNumber 7);
     Upload.url := "https://cache.example/";
     Upload.token := "secret";
     Upload.data := ["a"%byte; "b"%byte; "c"%byte] |}.

(** A callback that returns. *)
Definition quiet : Callback ExistsArgs := fun _ => None.


End Sample.

(** The bytes a list of requests carries in its buffer bodies, in the order
    of the requests. *)
Fixpoint sent_bytes (trace : list Request) : list byte :=
  match trace with
  | [] => []
  | req :: rest =>
      match req_body req with
      | Octets bytes => (bytes ++ sent_bytes rest)%list
      | _ => sent_bytes rest
      end
  end.

(** The service as a promise started after [n] calls sees it. *)
Definition later (n : nat) (replies : Replies) : Replies :=
  fun i => replies (i + n)%nat.

(** ** More sample inputs *)

Module Fixture.

(** A service that accepts the reservation and everything after it. *)
Definition accepting : Replies := Sample.always Sample.reserved.

(** A service that accepts the chunk and refuses the finalize POST. *)
Definition refusing_finalize : Replies :=
  fun n =>
    match n with
    | O => Fulfilled Sample.reserved
    | S _ => Fulfilled Sample.server_error
    end.

(** A service that cannot be reached. *)
Definition unreachable : Replies :=
  fun _ =>
    Rejected {| thrown_name := "FetchError";
                thrown_message := "request failed" |}.

(** A callback of the stream that returns. *)
Definition done : Callback (option JsError) := fun _ => None.

(** 200 with the body [null]. *)
Definition null_body : Response :=
  {| status := 200;
     res_text := inr "null";
     res_json := inr JNull;
     res_body := Some [] |}.

(** 201 with an object that gives no session identifier. *)
Definition reserved_without_id : Response :=
  {| status := 201;
     res_text := inr "{}";
     res_json := inr (JObject []);
     res_body := Some [] |}.

End Fixture.

(** * Properties *)

(** ** Running promises *)

Lemma run_bind {A B : Type} (p : Async A) (f : A -> Async B) replies n :
  run (bind p f) replies n =
  match run p replies n with
  | (t, inl e) => (t, inl e)
  | (t, inr a) =>
      let (t', r) := run (f a) replies (n + List.length t)%nat in ((t ++ t')%list, r)
  end.
Proof.
  revert n; induction p as [a | e | req k IH]; intros n; simpl.
  - rewrite Nat.add_0_r. now destruct (run (f a) replies n).
  - reflexivity.
  - rewrite IH.
    destruct (run (k (replies n)) replies (S n)) as [t [e | a]]; simpl.
    + reflexivity.
    + rewrite Nat.add_succ_r.
      now destruct (run (f a) replies (S (n + List.length t))).
Qed.

Lemma run_outcome {A : Type} (p : Async A) replies n :
  run (outcome p) replies n =
  (fst (run p replies n), inr (snd (run p replies n))).
Proof.
  revert n; induction p as [a | e | req k IH]; intros n; simpl; trivial.
  rewrite IH. now destruct (run (k (replies n)) replies (S n)).
Qed.

Lemma run_fetch req replies n :
  run (fetch req) replies n =
  ([req],
   match replies n with
   | Fulfilled res => inr res
   | Rejected t => inl (Foreign t)
   end).
Proof.
  unfold fetch; simpl. now destruct (replies n).
Qed.

Lemma run_settled {A : Type} (r : Thrown + A) replies n :
  run (settled r) replies n =
  ([], match r with inl t => inl (Foreign t) | inr a => inr a end).
Proof. now destruct r. Qed.

(** A promise chain ending in callbacks issues the requests of the promise
    it starts from, and is itself always fulfilled. *)
Lemma run_then_catch {A Args : Type} (p : Async A) (cb : Callback Args)
    (f : A -> Args) (g : JsError -> Args) replies n :
  run (then_catch p cb f g) replies n =
  (fst (run p replies n),
   inr match snd (run p replies n) with
       | inr a =>
           match cb (f a) with
           | None => {| calls := [f a]; unhandled := None |}
           | Some err => {| calls := [f a; g err]; unhandled := cb (g err) |}
           end
       | inl err => {| calls := [g err]; unhandled := cb (g err) |}
       end).
Proof.
  unfold then_catch. rewrite run_bind, run_outcome; simpl.
  destruct (run p replies n) as [t [err | a]]; simpl.
  - now rewrite app_nil_r.
  - destruct (cb (f a)); simpl; now rewrite app_nil_r.
Qed.

(** ** Chunk arithmetic *)

Lemma CHUNK_SIZE_value : Upload.CHUNK_SIZE = 33554432.
Proof. reflexivity. Qed.

Lemma buffer_length_nonneg buf : 0 <= buffer_length buf.
Proof. unfold buffer_length; lia. Qed.

(** [Math.ceil(len / CHUNK_SIZE)] is the least number of chunks of
    [CHUNK_SIZE] bytes that cover [len] bytes. *)
Lemma chunks_bounds this :
  Upload.CHUNK_SIZE * (Upload.chunks this - 1) < buffer_length (Upload.data this)
  /\ buffer_length (Upload.data this) <= Upload.CHUNK_SIZE * Upload.chunks this.
Proof.
  unfold Upload.chunks, Math_ceil, Qceiling, Qfloor.
  rewrite CHUNK_SIZE_value.
  set (L := buffer_length (Upload.data this)).
  change (Qopp (inject_Z L / inject_Z 33554432))
    with (Qmake (- (L * 1)) (1 * 33554432)).
  cbv beta iota.
  change (Z.pos (1 * 33554432)%positive) with 33554432.
  rewrite Z.mul_1_r.
  pose proof (Z.div_mod (- L) 33554432 ltac:(lia)) as E.
  pose proof (Z.mod_pos_bound (- L) 33554432 ltac:(lia)) as B.
  lia.
Qed.

Lemma chunks_nonneg this : 0 <= Upload.chunks this.
Proof.
  pose proof (chunks_bounds this) as [_ H].
  pose proof (buffer_length_nonneg (Upload.data this)).
  rewrite CHUNK_SIZE_value in H. lia.
Qed.

Lemma chunks_empty this :
  buffer_length (Upload.data this) = 0 -> Upload.chunks this = 0.
Proof.
  intros E. pose proof (chunks_bounds this) as [H1 H2].
  rewrite CHUNK_SIZE_value, E in *. lia.
Qed.

(** ** Slices *)

Lemma firstn_then_firstn {A : Type} (a b : nat) (l : list A) :
  (firstn a l ++ firstn b (skipn a l))%list = firstn (a + b) l.
Proof.
  revert l; induction a as [| a IH]; intros [| x l]; simpl; trivial.
  - now rewrite firstn_nil.
  - now rewrite IH.
Qed.

Lemma bytes_between_app buf x y z :
  0 <= x <= y -> y <= z ->
  (bytes_between buf x y ++ bytes_between buf y z)%list = bytes_between buf x z.
Proof.
  intros Hxy Hyz. unfold bytes_between.
  replace (Z.to_nat y) with (Z.to_nat (y - x) + Z.to_nat x)%nat by lia.
  rewrite <- skipn_skipn, firstn_then_firstn. f_equal. lia.
Qed.

(** Reading up to the end of the buffer or beyond it gives the same bytes. *)
Lemma bytes_between_min buf x y :
  0 <= x ->
  bytes_between buf x (Z.min y (buffer_length buf)) = bytes_between buf x y.
Proof.
  intros Hx. unfold bytes_between, buffer_length.
  destruct (Z.le_gt_cases y (Z.of_nat (List.length buf))) as [H | H].
  - now rewrite Z.min_l.
  - rewrite Z.min_r by lia.
    rewrite !firstn_all2; trivial; rewrite length_skipn; lia.
Qed.

Lemma bytes_between_all buf z :
  buffer_length buf <= z -> bytes_between buf 0 z = buf.
Proof.
  intros H. unfold bytes_between, buffer_length in *; simpl.
  apply firstn_all2. lia.
Qed.

Lemma bytes_between_length buf x y :
  0 <= x <= y -> y <= buffer_length buf ->
  buffer_length (bytes_between buf x y) = y - x.
Proof.
  intros Hxy Hy. unfold bytes_between, buffer_length in *.
  rewrite length_firstn, length_skipn. lia.
Qed.

(** Within the buffer [slice] takes the bytes between its two indices. *)
Lemma slice_within buf x y :
  0 <= x <= y -> y <= buffer_length buf -> slice buf x y = bytes_between buf x y.
Proof.
  intros Hxy Hy. unfold slice, slice_index, bytes_between.
  destruct (Z.ltb_spec x 0); [lia |].
  destruct (Z.ltb_spec y 0); [lia |].
  now rewrite !Z.min_l by lia.
Qed.

Lemma range_succ n : 0 <= n -> range (n + 1) = (range n ++ [n])%list.
Proof.
  intros H. unfold range.
  replace (Z.to_nat (n + 1)) with (Z.to_nat n + 1)%nat by lia.
  rewrite seq_app, map_app; simpl. now rewrite Z2Nat.id.
Qed.

Lemma range_length n : List.length (range n) = Z.to_nat n.
Proof. unfold range. now rewrite length_map, length_seq. Qed.

Lemma range_nth n i :
  0 <= i < n -> nth_error (range n) (Z.to_nat i) = Some i.
Proof.
  intros H. unfold range.
  rewrite nth_error_map, nth_error_seq.
  destruct (Nat.ltb_spec (Z.to_nat i) (Z.to_nat n)); [| lia].
  simpl. now rewrite Z2Nat.id by lia.
Qed.

Lemma range_In n i : In i (range n) <-> 0 <= i < n.
Proof.
  unfold range. rewrite in_map_iff. split.
  - intros (j & <- & Hj%in_seq). lia.
  - intros H. exists (Z.to_nat i). rewrite in_seq. lia.
Qed.

(** The chunk of pass [i] is the part of the payload that starts at
    [i * CHUNK_SIZE] and ends before the next multiple of [CHUNK_SIZE] or at
    the end of the payload. *)
Lemma chunk_bytes this i :
  0 <= i < Upload.chunks this ->
  Upload.chunk this i =
  bytes_between (Upload.data this) (i * Upload.CHUNK_SIZE)
    (Z.min ((i + 1) * Upload.CHUNK_SIZE) (buffer_length (Upload.data this))).
Proof.
  intros Hi. pose proof (chunks_bounds this) as [Hlo Hhi].
  unfold Upload.chunk, Math_min. rewrite CHUNK_SIZE_value in *.
  apply slice_within; lia.
Qed.

Lemma chunk_length this i :
  0 <= i < Upload.chunks this ->
  buffer_length (Upload.chunk this i) =
  Z.min ((i + 1) * Upload.CHUNK_SIZE) (buffer_length (Upload.data this))
  - i * Upload.CHUNK_SIZE.
Proof.
  intros Hi. rewrite chunk_bytes by trivial.
  pose proof (chunks_bounds this) as [Hlo Hhi].
  rewrite CHUNK_SIZE_value in *.
  apply bytes_between_length; lia.
Qed.

(** The chunks of the passes before [n], put end to end, are the first
    [n * CHUNK_SIZE] bytes of the payload. *)
Lemma chunks_concat_upto this n :
  0 <= n <= Upload.chunks this ->
  List.concat (map (Upload.chunk this) (range n)) =
  bytes_between (Upload.data this) 0 (n * Upload.CHUNK_SIZE).
Proof.
  intros [H0 Hn]. rewrite <- (Z2Nat.id n H0) in *. clear H0.
  induction (Z.to_nat n) as [| k IH].
  - reflexivity.
  - rewrite Nat2Z.inj_succ in *. unfold Z.succ in *.
    rewrite range_succ, map_app, concat_app by lia. simpl.
    rewrite app_nil_r, IH, chunk_bytes by lia.
    rewrite bytes_between_min by (rewrite CHUNK_SIZE_value; lia).
    apply bytes_between_app; rewrite CHUNK_SIZE_value; lia.
Qed.

Lemma chunks_concat this :
  List.concat (map (Upload.chunk this) (range (Upload.chunks this))) =
  Upload.data this.
Proof.
  rewrite chunks_concat_upto by (pose proof (chunks_nonneg this); lia).
  apply bytes_between_all.
  pose proof (chunks_bounds this). lia.
Qed.

(** ** Runs of accepted answers *)

Lemma accepted_run_le replies n len :
  (accepted_run replies n len <= len)%nat.
Proof.
  revert n; induction len as [| len IH]; intros n; simpl; trivial.
  destruct (accepted (replies n)); [| lia].
  specialize (IH (S n)). lia.
Qed.

Lemma accepted_run_before replies n len j :
  (j < accepted_run replies n len)%nat -> accepted (replies (n + j)%nat) = true.
Proof.
  revert n j; induction len as [| len IH]; intros n j; simpl; [lia |].
  destruct (accepted (replies n)) eqn:E; [| lia].
  destruct j as [| j]; intros H.
  - now rewrite Nat.add_0_r.
  - rewrite Nat.add_succ_r. apply (IH (S n) j). lia.
Qed.

Lemma accepted_run_stop replies n len :
  (accepted_run replies n len < len)%nat ->
  accepted (replies (n + accepted_run replies n len)%nat) = false.
Proof.
  revert n; induction len as [| len IH]; intros n; simpl; [lia |].
  destruct (accepted (replies n)) eqn:E; intros H.
  - rewrite Nat.add_succ_r. apply (IH (S n)). lia.
  - now rewrite Nat.add_0_r.
Qed.

Lemma accepted_run_all replies n len :
  (forall j, (j < len)%nat -> accepted (replies (n + j)%nat) = true) ->
  accepted_run replies n len = len.
Proof.
  intros H. destruct (Nat.eq_dec (accepted_run replies n len) len) as [E | E].
  - exact E.
  - pose proof (accepted_run_le replies n len) as Hle.
    assert (Hlt : (accepted_run replies n len < len)%nat) by lia.
    apply accepted_run_stop in Hlt. rewrite H in Hlt; [discriminate | lia].
Qed.

(** ** The finalize sequence *)

Section Sink.

Variable encodeURIComponent : Value -> string.

#[local] Abbreviation patch_request := (Upload.patch_request encodeURIComponent).
#[local] Abbreviation finalize_request := (Upload.finalize_request encodeURIComponent).
#[local] Abbreviation upload_chunk := (Upload.upload_chunk encodeURIComponent).
#[local] Abbreviation completeUpload := (Upload.completeUpload encodeURIComponent).
#[local] Abbreviation plan := (plan encodeURIComponent).

Lemma run_upload_chunk this i replies n :
  run (upload_chunk this i) replies n =
  ([patch_request this i],
   if accepted (replies n) then inr tt
   else inl (refusal "Failed to patch upload range for upload: " (replies n))).
Proof.
  unfold Upload.upload_chunk. rewrite run_bind, run_fetch.
  destruct (replies n) as [res | t]; simpl; trivial.
  destruct (ok res); simpl; trivial.
  now destruct (res_text res).
Qed.

(** The loop sends the chunks in order up to and including the first one
    that is not accepted. *)
Lemma run_for_each this indices replies n :
  run (for_each indices (upload_chunk this)) replies n =
  let k := accepted_run replies n (List.length indices) in
  if (k =? List.length indices)%nat
  then (map (patch_request this) indices, inr tt)
  else (map (patch_request this) (firstn (S k) indices),
        inl (refusal "Failed to patch upload range for upload: "
               (replies (n + k)%nat))).
Proof.
  revert n; induction indices as [| i rest IH]; intros n; trivial.
  cbn [for_each List.length accepted_run].
  rewrite run_bind, run_upload_chunk.
  destruct (accepted (replies n)) eqn:E; simpl.
  - rewrite Nat.add_1_r, IH; simpl.
    destruct (Nat.eqb_spec (accepted_run replies (S n) (List.length rest))
                (List.length rest)); simpl.
    + reflexivity.
    + now rewrite Nat.add_succ_r.
  - now rewrite Nat.add_0_r.
Qed.

(** What closing the sink does, whatever the service answers. *)
Lemma run_completeUpload this replies :
  run (completeUpload this) replies 0 =
  let count := Z.to_nat (Upload.chunks this) in
  let k := accepted_run replies 0 count in
  if (k =? count)%nat
  then ((map (patch_request this) (range (Upload.chunks this))
         ++ [finalize_request this])%list,
        if accepted (replies count) then inr tt
        else inl (refusal "Failed to finalize POST for upload: "
                    (replies count)))
  else (map (patch_request this) (firstn (S k) (range (Upload.chunks this))),
        inl (refusal "Failed to patch upload range for upload: " (replies k))).
Proof.
  unfold Upload.completeUpload.
  rewrite run_bind, run_for_each, range_length. cbv zeta.
  destruct (Nat.eqb_spec (accepted_run replies 0 (Z.to_nat (Upload.chunks this)))
              (Z.to_nat (Upload.chunks this))) as [E | E]; trivial.
  rewrite run_bind, run_fetch, length_map, range_length, Nat.add_0_l.
  destruct (replies (Z.to_nat (Upload.chunks this))) as [res | t]; simpl; trivial.
  destruct (ok res); simpl; trivial.
  now destruct (res_text res).
Qed.

Lemma plan_length this :
  List.length (plan this) = S (Z.to_nat (Upload.chunks this)).
Proof.
  unfold plan. rewrite length_app, length_map, range_length; simpl. lia.
Qed.

Lemma plan_patch this i :
  0 <= i < Upload.chunks this ->
  nth_error (plan this) (Z.to_nat i) = Some (patch_request this i).
Proof.
  intros H. unfold plan.
  rewrite nth_error_app1 by (rewrite length_map, range_length; lia).
  apply map_nth_error, range_nth, H.
Qed.

Lemma plan_finalize this :
  nth_error (plan this) (Z.to_nat (Upload.chunks this)) =
  Some (finalize_request this).
Proof.
  unfold plan.
  rewrite nth_error_app2 by (rewrite length_map, range_length; lia).
  rewrite length_map, range_length, Nat.sub_diag. reflexivity.
Qed.

(** A close issues the planned requests up to and including the first one
    that is not accepted. *)
Lemma requests_completeUpload this replies :
  requests (completeUpload this) replies =
  firstn (S (accepted_run replies 0 (Z.to_nat (Upload.chunks this))))
    (plan this).
Proof.
  unfold requests. rewrite run_completeUpload. cbv zeta.
  set (count := Z.to_nat (Upload.chunks this)).
  set (k := accepted_run replies 0 count).
  destruct (Nat.eqb_spec k count) as [E | E]; cbn [fst].
  - rewrite firstn_all2; trivial. rewrite plan_length. fold count. lia.
  - pose proof (accepted_run_le replies 0 count) as Hle. fold k in Hle.
    unfold plan. rewrite firstn_app, length_map, range_length. fold count.
    replace (S k - count)%nat with 0%nat by lia.
    now rewrite firstn_O, app_nil_r, firstn_map.
Qed.

Lemma settlement_completeUpload this replies :
  let count := Z.to_nat (Upload.chunks this) in
  let k := accepted_run replies 0 count in
  settlement (completeUpload this) replies =
  if accepted (replies k) then inr tt
  else inl (refusal (if (k =? count)%nat
                     then "Failed to finalize POST for upload: "
                     else "Failed to patch upload range for upload: ")
              (replies k)).
Proof.
  unfold settlement. rewrite run_completeUpload. cbv zeta.
  set (count := Z.to_nat (Upload.chunks this)).
  set (k := accepted_run replies 0 count).
  destruct (Nat.eqb_spec k count) as [E | E]; cbn [snd].
  - now rewrite E.
  - pose proof (accepted_run_le replies 0 count) as Hle. fold k in Hle.
    assert (Hlt : (k < count)%nat) by lia.
    pose proof (accepted_run_stop replies 0 count Hlt) as Hstop.
    simpl in Hstop. fold k in Hstop. now rewrite Hstop.
Qed.

Lemma requests_length this replies :
  List.length (requests (completeUpload this) replies) =
  S (accepted_run replies 0 (Z.to_nat (Upload.chunks this))).
Proof.
  rewrite requests_completeUpload, length_firstn, plan_length.
  pose proof (accepted_run_le replies 0 (Z.to_nat (Upload.chunks this))). lia.
Qed.

Lemma requests_nth this replies j :
  (j <= accepted_run replies 0 (Z.to_nat (Upload.chunks this)))%nat ->
  nth_error (requests (completeUpload this) replies) j =
  nth_error (plan this) j.
Proof.
  intros H. rewrite requests_completeUpload, nth_error_firstn.
  destruct (Nat.ltb_spec j
    (S (accepted_run replies 0 (Z.to_nat (Upload.chunks this))))); trivial; lia.
Qed.

(** A request that was issued was planned, and every request before it was
    accepted. *)
Lemma requests_issued this replies j req :
  nth_error (requests (completeUpload this) replies) j = Some req ->
  nth_error (plan this) j = Some req
  /\ forall i, (i < j)%nat -> accepted (replies i) = true.
Proof.
  intros H.
  assert (Hj : (j < List.length (requests (completeUpload this) replies))%nat)
    by (apply nth_error_Some; congruence).
  rewrite requests_length in Hj. split.
  - rewrite <- (requests_nth this replies j) by lia. exact H.
  - intros i Hi.
    apply (accepted_run_before replies 0 (Z.to_nat (Upload.chunks this)) i). lia.
Qed.

Lemma method_patch_request this i : req_method (patch_request this i) = PATCH.
Proof. reflexivity. Qed.

Lemma method_finalize_request this : req_method (finalize_request this) = POST.
Proof. reflexivity. Qed.

(** What is planned at position [j]: the PATCH of chunk [j] before the
    finalize POST, which comes last. *)
Lemma plan_nth this j req :
  nth_error (plan this) j = Some req ->
  ((j < Z.to_nat (Upload.chunks this))%nat
   /\ req = patch_request this (Z.of_nat j))
  \/ (j = Z.to_nat (Upload.chunks this) /\ req = finalize_request this).
Proof.
  intros H.
  assert (Hj : (j < List.length (plan this))%nat)
    by (apply nth_error_Some; congruence).
  rewrite plan_length in Hj.
  destruct (Nat.eq_dec j (Z.to_nat (Upload.chunks this))) as [E | E].
  - right. split; trivial. subst j. rewrite plan_finalize in H. congruence.
  - left. split; [lia |].
    rewrite <- (Nat2Z.id j), plan_patch in H by lia. congruence.
Qed.

(** When every chunk PATCH that is issued is accepted, the whole plan is
    carried out. *)
Lemma requests_when_chunks_accepted this replies :
  (forall j req,
     nth_error (requests (completeUpload this) replies) j = Some req ->
     req_method req = PATCH -> accepted (replies j) = true) ->
  requests (completeUpload this) replies = plan this.
Proof.
  intros H. set (count := Z.to_nat (Upload.chunks this)).
  assert (K : accepted_run replies 0 count = count).
  { pose proof (accepted_run_le replies 0 count) as Hle.
    destruct (Nat.eq_dec (accepted_run replies 0 count) count) as [E | E];
      trivial.
    assert (Hlt : (accepted_run replies 0 count < count)%nat) by lia.
    pose proof (accepted_run_stop replies 0 count Hlt) as Hstop.
    simpl in Hstop. rewrite (H _ (patch_request this
      (Z.of_nat (accepted_run replies 0 count)))) in Hstop; try discriminate.
    - rewrite requests_nth by (fold count; lia).
      rewrite <- (Nat2Z.id (accepted_run replies 0 count)) at 1.
      apply plan_patch. lia.
    - reflexivity. }
  rewrite requests_completeUpload. fold count. rewrite K.
  apply firstn_all2. rewrite plan_length. fold count. lia.
Qed.

(** C1.  Closing a sink that buffers a payload of [L] bytes issues, when the
    service accepts every chunk PATCH it receives, exactly
    ceil(L / 33554432) chunk-upload PATCH calls followed by exactly one
    finalize POST whose body carries the size [L]; for [L = 0] no chunk call
    is made and the finalize POST carries size 0. *)
Theorem close_issues_chunks_then_finalize this replies :
  (forall j req,
     nth_error (requests (completeUpload this) replies) j = Some req ->
     req_method req = PATCH -> accepted (replies j) = true) ->
  let L := buffer_length (Upload.data this) in
  exists patches finalize,
    requests (completeUpload this) replies = (patches ++ [finalize])%list
    /\ Z.of_nat (List.length patches)
       = Qceiling (inject_Z L / inject_Z 33554432)
    /\ Forall (fun req => req_method req = PATCH) patches
    /\ req_method finalize = POST
    /\ req_body finalize = Stringified (JObject [("size", JNumber L)])
    /\ (L = 0 -> patches = []).
Proof.
  intros H L.
  exists (map (patch_request this) (range (Upload.chunks this))),
    (finalize_request this).
  split; [exact (requests_when_chunks_accepted this replies H) |].
  split.
  { rewrite length_map, range_length, Z2Nat.id by apply chunks_nonneg.
    reflexivity. }
  split.
  { apply Forall_map, Forall_forall. intros i _. reflexivity. }
  split; [reflexivity |]. split; [reflexivity |].
  intros E. unfold L in E. now rewrite (chunks_empty this E).
Qed.

(** C2.  Chunk [i] of a payload of [L] bytes, for [i] from 0 up to (not
    including) ceil(L / 32 MiB), is sent once the chunks before it have
    been accepted; its PATCH carries the bytes at the offsets
    [i * 32 MiB], ..., [min((i + 1) * 32 MiB, L) - 1] and the header
    [Content-Range: bytes {start}-{end}/{total}] with [start = i * 32 MiB],
    [end] the offset of the last byte it carries and [total = L].  The
    ranges of the chunks are not empty, start at 0, follow one another
    without a gap or an overlap and end at [L]; put end to end the chunks
    are the payload. *)
Theorem chunk_ranges_partition_payload this replies :
  let L := buffer_length (Upload.data this) in
  let n := Qceiling (inject_Z L / inject_Z 33554432) in
  let first i := i * 33554432 in
  let stop i := Z.min ((i + 1) * 33554432) L in
  (forall i, 0 <= i < n ->
     (forall j, (j < Z.to_nat i)%nat -> accepted (replies j) = true) ->
     exists req,
       nth_error (requests (completeUpload this) replies) (Z.to_nat i)
       = Some req
       /\ req_method req = PATCH
       /\ req_body req
          = Octets (bytes_between (Upload.data this) (first i) (stop i))
       /\ header "Content-Range" (req_headers req)
          = Some ("bytes " ++ number_to_string (first i) ++ "-"
                  ++ number_to_string (stop i - 1) ++ "/"
                  ++ number_to_string L))
  /\ (forall i, 0 <= i < n -> 0 <= first i < stop i /\ stop i <= L)
  /\ (0 < n -> first 0 = 0 /\ stop (n - 1) = L)
  /\ (forall i, 0 <= i -> i + 1 < n -> first (i + 1) = stop i)
  /\ List.concat
       (map (fun i => bytes_between (Upload.data this) (first i) (stop i))
          (range n))
     = Upload.data this.
Proof.
  intros L n first stop. change n with (Upload.chunks this). clear n.
  set (n := Upload.chunks this).
  pose proof (chunks_bounds this) as [Hlo Hhi].
  rewrite CHUNK_SIZE_value in Hlo, Hhi. fold L n in Hlo, Hhi.
  split; [| split; [| split; [| split]]].
  - intros i Hi Hbefore. exists (patch_request this i).
    split; [| split; [reflexivity | split]].
    + rewrite requests_nth; [apply plan_patch, Hi |].
      pose proof (accepted_run_le replies 0 (Z.to_nat n)) as Hle.
      destruct (Nat.le_gt_cases (Z.to_nat i)
                  (accepted_run replies 0 (Z.to_nat n))) as [Hk | Hk]; trivial.
      assert (Hlt : (accepted_run replies 0 (Z.to_nat n) < Z.to_nat n)%nat)
        by lia.
      pose proof (accepted_run_stop replies 0 (Z.to_nat n) Hlt) as Hstop.
      simpl in Hstop. rewrite Hbefore in Hstop by exact Hk. discriminate.
    + simpl. now rewrite chunk_bytes by exact Hi.
    + simpl. unfold Upload.content_range.
      rewrite chunk_length, CHUNK_SIZE_value by exact Hi.
      fold L. unfold first, stop.
      replace (i * 33554432 + (Z.min ((i + 1) * 33554432) L - i * 33554432) - 1)
        with (Z.min ((i + 1) * 33554432) L - 1) by lia.
      reflexivity.
  - intros i Hi. unfold first, stop. lia.
  - intros Hn. unfold first, stop. lia.
  - intros i Hi Hn. unfold first, stop. lia.
  - transitivity (List.concat (map (Upload.chunk this) (range n))).
    + f_equal. apply map_ext_in. intros i Hi%range_In.
      now rewrite chunk_bytes by exact Hi.
    + apply chunks_concat.
Qed.


End Sink.

(** ** The lookup client *)

Section Lookup.

Variable encodeURIComponent : Value -> string.

#[local] Abbreviation getMeta := (GithubActionsCache.getMeta encodeURIComponent).
#[local] Abbreviation get := (GithubActionsCache.get encodeURIComponent).
#[local] Abbreviation query_request :=
  (GithubActionsCache.query_request encodeURIComponent).
#[local] Abbreviation storageProvider := (storageProvider encodeURIComponent).

(** A resolution issues one query and settles on its answer alone. *)
Lemma run_getMeta this keys version replies n :
  run (getMeta this keys version) replies n =
  ([query_request this keys version],
   match replies n with
   | Rejected t => inl (Foreign t)
   | Fulfilled res =>
       if ok res then
         match res_json res with
         | inl t => inl (Foreign t)
         | inr body =>
             match property body "archiveLocation" with
             | inl t => inl (Foreign t)
             | inr archiveLocation =>
                 if truthy archiveLocation then inr body
                 else inl NotFoundError
             end
         end
       else inl NotFoundError
   end).
Proof.
  unfold GithubActionsCache.getMeta. rewrite run_bind, run_fetch.
  destruct (replies n) as [res | t]; trivial.
  destruct (ok res); simpl; trivial.
  destruct (res_json res) as [t | body]; simpl; trivial.
  destruct (property body "archiveLocation") as [t | loc]; simpl; trivial.
  now destruct (truthy loc).
Qed.

(** A response with a status of 400 or more is not [ok]. *)
Lemma not_ok_from_400 res : 400 <= status res -> ok res = false.
Proof.
  intros H. unfold ok. apply andb_false_iff. right. apply Z.leb_gt. lia.
Qed.

(** What [exists] tells its callback, from how the resolution settles. *)
Lemma callbacks_exists cache artifactPath cb replies :
  callbacks (exists_ (storageProvider cache) artifactPath cb) replies =
  match settlement (getMeta cache [artifactPath] VERSION) replies with
  | inr _ =>
      match cb (None, Some true) with
      | None => [(None, Some true)]
      | Some err => [(None, Some true); exists_rejected err]
      end
  | inl err => [exists_rejected err]
  end.
Proof.
  unfold callbacks, settlement, storageProvider. cbn [exists_].
  rewrite run_then_catch. cbn [snd].
  destruct (snd (run (getMeta cache [artifactPath] VERSION) replies 0));
    trivial.
  now destruct (cb (None, Some true)).
Qed.

Lemma settlement_getMeta this keys version replies :
  settlement (getMeta this keys version) replies =
  snd (run (getMeta this keys version) replies 0).
Proof. reflexivity. Qed.

(** C3.  A query answered with a status of 400 or more makes [exists]
    report [false] with no error.  An error of the resolution that is not a
    not-found, such as a response body that fails to parse on a success
    response, is handed to the callback as the error.  A success response
    whose body gives a usable download location makes [exists] report
    [true]. *)
Theorem exists_reports_miss_error_or_hit cache artifactPath cb replies :
  let told :=
    callbacks (exists_ (storageProvider cache) artifactPath cb) replies in
  (forall res,
     replies 0%nat = Fulfilled res -> 400 <= status res ->
     told = [(None, Some false)])
  /\ (forall err,
        settlement (getMeta cache [artifactPath] VERSION) replies = inl err ->
        instanceof_NotFoundError err = false ->
        told = [(Some err, Some false)])
  /\ (forall res t,
        replies 0%nat = Fulfilled res -> ok res = true ->
        res_json res = inl t ->
        told = [(Some (Foreign t), Some false)])
  /\ (forall res body archiveLocation,
        replies 0%nat = Fulfilled res -> ok res = true ->
        res_json res = inr body ->
        property body "archiveLocation" = inr archiveLocation ->
        truthy archiveLocation = true ->
        hd_error told = Some (None, Some true)
        /\ (cb (None, Some true) = None -> told = [(None, Some true)])).
Proof.
  intros told. unfold told. rewrite callbacks_exists, settlement_getMeta.
  rewrite run_getMeta. cbn [snd].
  split; [| split; [| split]].
  - intros res -> H. now rewrite (not_ok_from_400 res H).
  - intros err -> H. unfold exists_rejected. now rewrite H.
  - intros res t -> Hok Hjson. now rewrite Hok, Hjson.
  - intros res body loc -> Hok Hjson Hloc Htruthy.
    rewrite Hok, Hjson, Hloc, Htruthy.
    split; [now destruct (cb (None, Some true)) | now intros ->].
Qed.

(** C4, as the code has it.  A query answered with a success status (below
    400) and a body that parses to a value other than [null] and has no
    member [archiveLocation], so that [archiveLocation] reads off it as
    [undefined], fails the resolution with [NotFoundError], the error a
    response that is not [ok] gives, so that [exists] reports [false] with
    no error. *)
Theorem missing_location_is_not_found cache keys version replies res body :
  replies 0%nat = Fulfilled res ->
  status res < 400 ->
  res_json res = inr body ->
  property body "archiveLocation" = inr undefined ->
  settlement (getMeta cache keys version) replies = inl NotFoundError
  /\ (forall artifactPath cb,
        callbacks (exists_ (storageProvider cache) artifactPath cb) replies
        = [(None, Some false)])
  /\ (forall replies' res',
        replies' 0%nat = Fulfilled res' -> ok res' = false ->
        settlement (getMeta cache keys version) replies' = inl NotFoundError).
Proof.
  intros Hres _ Hjson Hmember.
  assert (miss : forall ks v,
    settlement (getMeta cache ks v) replies = inl NotFoundError).
  { intros ks v. rewrite settlement_getMeta, run_getMeta. cbn [snd].
    rewrite Hres, Hjson, Hmember. now destruct (ok res). }
  split; [apply miss | split].
  - intros artifactPath cb. now rewrite callbacks_exists, miss.
  - intros replies' res' Hres' Hok.
    rewrite settlement_getMeta, run_getMeta. cbn [snd].
    now rewrite Hres', Hok.
Qed.

(** A member reads as [undefined] off the values other than [null] that do
    not have it. *)
Lemma property_undefined_iff body name :
  property body name = inr undefined
  <-> body <> JNull
      /\ forall members,
           body = JObject members -> member name members = undefined.
Proof.
  split.
  - intros H. split.
    + intros ->. discriminate H.
    + intros members ->. simpl in H. now injection H.
  - intros [Hnull Hmembers]. destruct body; simpl; trivial.
    + now contradiction Hnull.
    + now rewrite (Hmembers members eq_refl).
Qed.

(** An object that does not list [archiveLocation] is such a body. *)
Lemma property_of_object_without name members :
  member name members = undefined ->
  property (JObject members) name = inr undefined.
Proof. intros H. simpl. now rewrite H. Qed.

(** So does a body off which [archiveLocation] reads as another falsy
    value: [null], [false], [0] or the empty string. *)
Lemma falsy_location_is_not_found cache keys version replies res body loc :
  replies 0%nat = Fulfilled res ->
  res_json res = inr body ->
  property body "archiveLocation" = inr loc ->
  truthy loc = false ->
  settlement (getMeta cache keys version) replies = inl NotFoundError.
Proof.
  intros Hres Hjson Hloc Hfalsy.
  rewrite settlement_getMeta, run_getMeta. cbn [snd].
  rewrite Hres, Hjson, Hloc, Hfalsy. now destruct (ok res).
Qed.

(** A body that is [null] is outside the type the code gives the body: the
    read of [archiveLocation] throws, and the resolution fails with that
    TypeError. *)
Lemma null_body_is_a_type_error cache keys version replies res :
  replies 0%nat = Fulfilled res ->
  ok res = true ->
  res_json res = inr JNull ->
  exists t,
    settlement (getMeta cache keys version) replies = inl (Foreign t)
    /\ thrown_name t = "TypeError".
Proof.
  intros Hres Hok Hjson.
  rewrite settlement_getMeta, run_getMeta. cbn [snd].
  rewrite Hres, Hok, Hjson. cbn [property]. eauto.
Qed.

Lemma run_get this keys version replies :
  run (get this keys version) replies 0 =
  match settlement (getMeta this keys version) replies with
  | inl err => ([query_request this keys version], inl err)
  | inr meta =>
      match property meta "archiveLocation" with
      | inl t => ([query_request this keys version], inl (Foreign t))
      | inr archiveLocation =>
          ([query_request this keys version;
            GithubActionsCache.blob_request archiveLocation],
           match replies 1%nat with
           | Rejected t => inl (Foreign t)
           | Fulfilled res =>
               match res_body res with
               | Some body =>
                   if ok res then inr body
                   else inl (Error "Failed to fetch blob")
               | None => inl (Error "Failed to fetch blob")
               end
           end)
      end
  end.
Proof.
  unfold GithubActionsCache.get.
  rewrite run_bind, settlement_getMeta, run_getMeta. cbn [snd].
  set (r := match replies 0%nat with Fulfilled _ => _ | Rejected _ => _ end).
  destruct r as [err | meta]; trivial.
  rewrite run_bind, run_settled.
  destruct (property meta "archiveLocation") as [t | loc]; trivial.
  rewrite run_bind, run_fetch. cbn [List.length Nat.add app].
  destruct (replies 1%nat) as [res | t]; trivial.
  destruct (res_body res); simpl; trivial.
  now destruct (ok res).
Qed.

(** C5.  When the resolution succeeds and the GET of the location it
    returned is answered with a response that is not a success or that has
    no body, [get] fails with the error [Failed to fetch blob], which is not
    a [NotFoundError]; no failure of [get] that follows a successful
    resolution is a [NotFoundError]. *)
Theorem failed_blob_fetch_is_not_a_miss cache keys version replies meta :
  settlement (getMeta cache keys version) replies = inr meta ->
  (forall res,
     replies 1%nat = Fulfilled res ->
     ok res = false \/ res_body res = None ->
     exists archiveLocation,
       requests (get cache keys version) replies
       = [query_request cache keys version;
          GithubActionsCache.blob_request archiveLocation]
       /\ property meta "archiveLocation" = inr archiveLocation
       /\ settlement (get cache keys version) replies
          = inl (Error "Failed to fetch blob")
       /\ instanceof_NotFoundError (Error "Failed to fetch blob") = false)
  /\ (forall err,
        settlement (get cache keys version) replies = inl err ->
        instanceof_NotFoundError err = false).
Proof.
  intros Hmeta.
  assert (Hloc : exists loc, property meta "archiveLocation" = inr loc).
  { rewrite settlement_getMeta, run_getMeta in Hmeta. cbn [snd] in Hmeta.
    destruct (replies 0%nat) as [res | t]; [| discriminate].
    destruct (ok res); [| discriminate].
    destruct (res_json res) as [t | body]; [discriminate |].
    destruct (property body "archiveLocation") as [t | loc] eqn:E;
      [discriminate |].
    destruct (truthy loc); [| discriminate].
    injection Hmeta as <-. eauto. }
  destruct Hloc as [loc Hloc].
  pose proof (run_get cache keys version replies) as R.
  rewrite Hmeta, Hloc in R.
  unfold requests, settlement. rewrite R. cbn [fst snd].
  split.
  - intros res -> Hbad. exists loc.
    split; [reflexivity | split; [exact Hloc | split; [| reflexivity]]].
    destruct Hbad as [-> | ->]; [now destruct (res_body res) | reflexivity].
  - intros err.
    destruct (replies 1%nat) as [res | t]; [| now intros [= <-]].
    destruct (res_body res); [| now intros [= <-]].
    destruct (ok res); [discriminate | now intros [= <-]].
Qed.

(** ** The reservation *)

Lemma run_upload this key version replies n :
  run (GithubActionsCache.upload this key version) replies n =
  ([GithubActionsCache.reserve_request this key version],
   match replies n with
   | Rejected t => inl (Foreign t)
   | Fulfilled res =>
       if ok res then
         match res_json res with
         | inl t => inl (Foreign t)
         | inr body =>
             match property body "cacheId" with
             | inl t => inl (Foreign t)
             | inr id =>
                 inr (Upload.new id (GithubActionsCache.url this)
                        (GithubActionsCache.token this))
             end
         end
       else
         match res_text res with
         | inl t => inl (Foreign t)
         | inr text => inl (Error text)
         end
   end).
Proof.
  unfold GithubActionsCache.upload. rewrite run_bind, run_fetch.
  destruct (replies n) as [res | t]; trivial.
  destruct (ok res); simpl.
  - destruct (res_json res) as [t | body]; simpl; trivial.
    now destruct (property body "cacheId").
  - now destruct (res_text res).
Qed.

(** C8, as the code has it.  A request for a write destination issues the
    reservation POST and nothing else.  When the reservation is answered
    with a response that is not a success, the request fails, with an
    [Error] carrying the response text, and gives no sink.  A sink is given
    only after a success response to the reservation whose body was read,
    and it stores what reading [cacheId] off that body gave; when the body
    is an object with a member [cacheId], the sink stores that session
    identifier. *)
Theorem failed_reservation_gives_no_sink cache artifactPath replies :
  let attempt := createWriteStream (storageProvider cache) artifactPath in
  requests attempt replies
  = [GithubActionsCache.reserve_request cache artifactPath VERSION]
  /\ (forall res,
        replies 0%nat = Fulfilled res -> ok res = false ->
        exists err,
          settlement attempt replies = inl err
          /\ forall text, res_text res = inr text -> err = Error text)
  /\ (forall sink,
        settlement attempt replies = inr sink ->
        exists res body,
          replies 0%nat = Fulfilled res /\ ok res = true
          /\ res_json res = inr body
          /\ property body "cacheId" = inr (Upload.cacheId sink)
          /\ sink = Upload.new (Upload.cacheId sink)
                      (GithubActionsCache.url cache)
                      (GithubActionsCache.token cache))
  /\ (forall res members id,
        replies 0%nat = Fulfilled res -> ok res = true ->
        res_json res = inr (JObject members) ->
        member "cacheId" members = Some id ->
        settlement attempt replies
        = inr (Upload.new (Some id) (GithubActionsCache.url cache)
                 (GithubActionsCache.token cache))).
Proof.
  intros attempt. unfold attempt, requests, settlement, storageProvider.
  cbn [createWriteStream]. rewrite run_upload. cbn [fst snd].
  split; [reflexivity | split; [| split]].
  - intros res -> ->. destruct (res_text res) as [t | text].
    + exists (Foreign t). split; [reflexivity | discriminate].
    + exists (Error text). split; [reflexivity | now intros ? [= <-]].
  - intros sink H.
    destruct (replies 0%nat) as [res | t]; [| discriminate].
    destruct (ok res) eqn:Hok.
    + destruct (res_json res) as [t | body] eqn:Hjson; [discriminate |].
      destruct (property body "cacheId") as [t | id] eqn:Hid; [discriminate |].
      injection H as <-. exists res, body. now repeat split.
    + now destruct (res_text res).
  - intros res members id -> -> ->. cbn [property]. now intros ->.
Qed.

(** ** The callback of [exists] *)


(** Whatever the callback does, it is called once or twice, and a second
    call only follows a first call [(null, true)] that threw. *)
Lemma exists_calls_back_at_most_twice cache artifactPath cb replies :
  let told :=
    callbacks (exists_ (storageProvider cache) artifactPath cb) replies in
  (List.length told = 1%nat
   \/ (exists err,
         cb (None, Some true) = Some err
         /\ told = [(None, Some true); exists_rejected err])).
Proof.
  intros told. unfold told. rewrite callbacks_exists.
  destruct (settlement (getMeta cache [artifactPath] VERSION) replies)
    as [err | meta]; [now left |].
  destruct (cb (None, Some true)) as [err |]; [right; eauto | now left].
Qed.

End Lookup.

(** ** The factory *)

Lemma fromEnv_cases env :
  match GithubActionsCache.fromEnv env with
  | inr cache =>
      env "ACTIONS_CACHE_URL" = Some (GithubActionsCache.url cache)
      /\ GithubActionsCache.url cache <> ""
      /\ env "ACTIONS_RUNTIME_TOKEN" = Some (GithubActionsCache.token cache)
      /\ GithubActionsCache.token cache <> ""
  | inl err =>
      (~ present env "ACTIONS_CACHE_URL"
       /\ err = Error "missing ACTIONS_CACHE_URL")
      \/ (present env "ACTIONS_CACHE_URL"
          /\ ~ present env "ACTIONS_RUNTIME_TOKEN"
          /\ err = Error "missing ACTIONS_RUNTIME_TOKEN")
  end.
Proof.
  unfold GithubActionsCache.fromEnv, present.
  destruct (env "ACTIONS_CACHE_URL") as [[| c url] |] eqn:Eurl.
  - left. split; trivial. intros (v & [= <-] & H). now apply H.
  - destruct (env "ACTIONS_RUNTIME_TOKEN") as [[| d token] |] eqn:Etoken.
    + right. split; [eexists; split; [reflexivity | discriminate] |].
      split; trivial. intros (v & [= <-] & H). now apply H.
    + simpl. repeat split; discriminate.
    + right. split; [eexists; split; [reflexivity | discriminate] |].
      split; trivial. now intros (v & [=] & _).
  - left. split; trivial. now intros (v & [=] & _).
Qed.

(** C6.  The factory builds a client exactly when the environment gives
    both the cache service URL and the bearer token and neither is empty;
    the client holds these two values.  Otherwise it fails with an error
    that names the missing value.  It issues no request. *)
Theorem factory_requires_url_and_token encodeURIComponent env :
  ((exists provider,
      createGithubActionsCache encodeURIComponent env = inr provider)
   <-> present env "ACTIONS_CACHE_URL" /\ present env "ACTIONS_RUNTIME_TOKEN")
  /\ (forall provider,
        createGithubActionsCache encodeURIComponent env = inr provider ->
        exists cache,
          GithubActionsCache.fromEnv env = inr cache
          /\ provider = storageProvider encodeURIComponent cache
          /\ env "ACTIONS_CACHE_URL" = Some (GithubActionsCache.url cache)
          /\ env "ACTIONS_RUNTIME_TOKEN"
             = Some (GithubActionsCache.token cache))
  /\ (~ present env "ACTIONS_CACHE_URL" ->
      createGithubActionsCache encodeURIComponent env
      = inl (Error "missing ACTIONS_CACHE_URL"))
  /\ (present env "ACTIONS_CACHE_URL" ->
      ~ present env "ACTIONS_RUNTIME_TOKEN" ->
      createGithubActionsCache encodeURIComponent env
      = inl (Error "missing ACTIONS_RUNTIME_TOKEN"))
  /\ (forall replies n,
        fst (run (sync (createGithubActionsCache encodeURIComponent env))
               replies n) = []).
Proof.
  unfold createGithubActionsCache.
  pose proof (fromEnv_cases env) as H.
  destruct (GithubActionsCache.fromEnv env) as [err | cache].
  - split; [| split; [| split; [| split]]].
    + split; [now intros [? [=]] |].
      intros [Hurl Htoken]. destruct H as [[H _] | (_ & H & _)]; contradiction.
    + now intros ? [=].
    + intros Hurl. destruct H as [[_ ->] | [H _]]; [trivial | contradiction].
    + intros Hurl Htoken.
      destruct H as [[H _] | (_ & _ & ->)]; [contradiction | trivial].
    + reflexivity.
  - destruct H as (Hurl & Nurl & Htoken & Ntoken).
    assert (Purl : present env "ACTIONS_CACHE_URL") by (red; eauto).
    assert (Ptoken : present env "ACTIONS_RUNTIME_TOKEN") by (red; eauto).
    split; [| split; [| split; [| split]]].
    + split; eauto.
    + intros provider [= <-]. exists cache. auto.
    + contradiction.
    + contradiction.
    + reflexivity.
Qed.

(** ** Writes *)

Lemma run_write_all this written replies n :
  run (write_all this written) replies n =
  ([],
   inr ({| Upload.cacheId := Upload.cacheId this;
           Upload.url := Upload.url this;
           Upload.token := Upload.token this;
           Upload.data := (Upload.data this ++ List.concat written)%list |},
        map (fun _ => None) written)).
Proof.
  revert this; induction written as [| chunk rest IH]; intros this.
  - simpl. rewrite app_nil_r. now destruct this.
  - cbn [write_all]. unfold Upload._write. cbn [bind snd fst].
    rewrite run_bind, IH. cbn [Upload.cacheId Upload.url Upload.token
      Upload.data Buffer_concat List.concat run app fst snd map].
    now rewrite app_nil_r, <- app_assoc.
Qed.

(** C9.  After any sequence of writes to a sink the buffered payload is
    what it was before followed by the written chunks, in the order of the
    calls; on a new sink it is their concatenation.  Every write completes
    with success, whatever the sizes, and no write issues a request. *)
Theorem writes_append_to_the_payload this written replies n :
  exists sink,
    run (write_all this written) replies n
    = ([], inr (sink, map (fun _ => None) written))
    /\ Upload.data sink = (Upload.data this ++ List.concat written)%list
    /\ Upload.cacheId sink = Upload.cacheId this
    /\ Upload.url sink = Upload.url this
    /\ Upload.token sink = Upload.token this
    /\ (Upload.data this = Buffer_of ->
        Upload.data sink = List.concat written)
    /\ (forall chunk,
          run (Upload._write sink chunk) replies n
          = ([], inr ({| Upload.cacheId := Upload.cacheId sink;
                         Upload.url := Upload.url sink;
                         Upload.token := Upload.token sink;
                         Upload.data := (Upload.data sink ++ chunk)%list |},
                      None))).
Proof.
  rewrite run_write_all. eexists. split; [reflexivity |].
  cbn [Upload.data Upload.cacheId Upload.url Upload.token].
  repeat split.
  - now intros ->.
  - intros chunk. simpl. now rewrite app_nil_r.
Qed.

(** * Concrete runs *)

(** Closing the sink that holds [abc]: one PATCH for [bytes 0-2/3], then the
    finalize POST with size 3. *)
Example close_abc :
  run (Upload.completeUpload Sample.encode Sample.abc)
    (Sample.always Sample.reserved) 0
  = ([Upload.patch_request Sample.encode Sample.abc 0;
      Upload.finalize_request Sample.encode Sample.abc],
     inr tt)
  /\ header "Content-Range"
       (req_headers (Upload.patch_request Sample.encode Sample.abc 0))
     = Some "bytes 0-2/3"
  /\ req_body (Upload.finalize_request Sample.encode Sample.abc)
     = Stringified (JObject [("size", JNumber 3)]).
Proof. repeat split. Qed.

(** Closing it against a service that refuses the chunk: the PATCH is the
    only request. *)
Example close_abc_refused :
  run (Upload.completeUpload Sample.encode Sample.abc)
    (Sample.always Sample.server_error) 0
  = ([Upload.patch_request Sample.encode Sample.abc 0],
     inl (Error "Failed to patch upload range for upload: boom")).
Proof. reflexivity. Qed.

(** A 40 MiB payload is sent in two chunks. *)
Example forty_mebibytes this :
  buffer_length (Upload.data this) = 40 * 1024 * 1024 ->
  Upload.chunks this = 2
  /\ Upload.content_range this 0 = "bytes 0-33554431/41943040"
  /\ Upload.content_range this 1 = "bytes 33554432-41943039/41943040".
Proof.
  intros H.
  assert (E : Upload.chunks this = 2)
    by (unfold Upload.chunks; now rewrite H).
  split; [exact E |].
  unfold Upload.content_range.
  rewrite !chunk_length, H by (rewrite E; lia).
  split; reflexivity.
Qed.

Lemma close_issues_chunks_then_finalize_witness :
  exists patches finalize,
    requests (Upload.completeUpload Sample.encode Sample.abc)
      (Sample.always Sample.reserved)
    = (patches ++ [finalize])%list
    /\ Z.of_nat (List.length patches)
       = Qceiling (inject_Z 3 / inject_Z 33554432)
    /\ Forall (fun req => req_method req = PATCH) patches
    /\ req_method finalize = POST
    /\ req_body finalize = Stringified (JObject [("size", JNumber 3)])
    /\ (3 = 0 -> patches = []).
Proof.
  apply (close_issues_chunks_then_finalize Sample.encode Sample.abc
           (Sample.always Sample.reserved)).
  intros j req _ _. reflexivity.
Defined.

Lemma missing_location_is_not_found_witness :
  settlement
    (GithubActionsCache.getMeta Sample.encode Sample.cache ["k"] VERSION)
    (Sample.always Sample.no_location)
  = inl NotFoundError
  /\ callbacks
       (exists_ (storageProvider Sample.encode Sample.cache) "k" Sample.quiet)
       (Sample.always Sample.no_location)
     = [(None, Some false)].
Proof.
  destruct (missing_location_is_not_found Sample.encode Sample.cache ["k"]
              VERSION (Sample.always Sample.no_location) Sample.no_location
              (JObject []))
    as (miss & told & _).
  - reflexivity.
  - reflexivity.
  - reflexivity.
  - reflexivity.
  - split; [exact miss | exact (told "k" Sample.quiet)].
Defined.

Lemma failed_blob_fetch_is_not_a_miss_witness :
  settlement
    (GithubActionsCache.get Sample.encode Sample.cache ["k"] VERSION)
    (Sample.first_then Sample.found Sample.server_error)
  = inl (Error "Failed to fetch blob").
Proof.
  destruct (failed_blob_fetch_is_not_a_miss Sample.encode Sample.cache ["k"]
              VERSION (Sample.first_then Sample.found Sample.server_error)
              (JObject [("archiveLocation", JString "https://blob.example/a")]))
    as [fatal _].
  - reflexivity.
  - destruct (fatal Sample.server_error) as (loc & _ & _ & failed & _).
    + reflexivity.
    + left. reflexivity.
    + exact failed.
Defined.



Lemma chunk_ranges_partition_payload_witness :
  exists req,
    nth_error
      (requests (Upload.completeUpload Sample.encode Sample.abc)
         (Sample.always Sample.reserved)) 0
    = Some req
    /\ req_method req = PATCH
    /\ req_body req = Octets ["a"%byte; "b"%byte; "c"%byte]
    /\ header "Content-Range" (req_headers req) = Some "bytes 0-2/3".
Proof.
  pose proof (chunk_ranges_partition_payload Sample.encode Sample.abc
                (Sample.always Sample.reserved)) as H.
  cbv zeta in H. destruct H as [sent _].
  apply (sent 0).
  - vm_compute. split; [discriminate | reflexivity].
  - intros j Hj. simpl in Hj. lia.
Defined.

Lemma exists_reports_miss_error_or_hit_witness :
  callbacks
    (exists_ (storageProvider Sample.encode Sample.cache) "k" Sample.quiet)
    (Sample.always Sample.not_found)
  = [(None, Some false)].
Proof.
  pose proof (exists_reports_miss_error_or_hit Sample.encode Sample.cache "k"
                Sample.quiet (Sample.always Sample.not_found)) as H.
  cbv zeta in H. destruct H as [miss _].
  apply (miss Sample.not_found).
  - reflexivity.
  - vm_compute. discriminate.
Defined.

Lemma factory_requires_url_and_token_witness :
  exists provider,
    createGithubActionsCache Sample.encode Sample.env = inr provider.
Proof.
  destruct (factory_requires_url_and_token Sample.encode Sample.env)
    as [[_ build] _].
  apply build.
  split; eexists; (split; [reflexivity | discriminate]).
Defined.


Lemma failed_reservation_gives_no_sink_witness :
  exists err,
    settlement
      (createWriteStream (storageProvider Sample.encode Sample.cache) "k")
      (Sample.always Sample.server_error)
    = inl err
    /\ forall text, res_text Sample.server_error = inr text -> err = Error text.
Proof.
  pose proof (failed_reservation_gives_no_sink Sample.encode Sample.cache "k"
                (Sample.always Sample.server_error)) as H.
  cbv zeta in H. destruct H as (_ & refused & _).
  apply (refused Sample.server_error); reflexivity.
Defined.

Lemma writes_append_to_the_payload_witness :
  exists sink,
    run (write_all (Upload.new (Some (JNumber 7)) "https://cache.example/"
                      "secret")
           [["a"%byte]; ["b"%byte; "c"%byte]])
      (Sample.always Sample.server_error) 0
    = ([], inr (sink, [None; None]))
    /\ Upload.data sink = ["a"%byte; "b"%byte; "c"%byte].
Proof.
  destruct (writes_append_to_the_payload
              (Upload.new (Some (JNumber 7)) "https://cache.example/" "secret")
              [["a"%byte]; ["b"%byte; "c"%byte]]
              (Sample.always Sample.server_error) 0)
    as (sink & Hrun & Hdata & _).
  exists sink. split; [exact Hrun | exact Hdata].
Defined.

(** * Further properties *)

(** ** Promises started late, and runs of accepted answers *)

Lemma run_later {A : Type} (p : Async A) replies m n :
  run p replies (m + n)%nat = run p (later n replies) m.
Proof.
  revert m; induction p as [a | e | req k IH]; intros m; simpl; trivial.
  now rewrite <- (IH (later n replies m) (S m)).
Qed.

(** The run of accepted answers ends at the first answer that is not
    accepted. *)
Lemma accepted_run_until replies n len j :
  (j <= len)%nat ->
  (forall i, (i < j)%nat -> accepted (replies (n + i)%nat) = true) ->
  (j < len -> accepted (replies (n + j)%nat) = false)%nat ->
  accepted_run replies n len = j.
Proof.
  intros Hj Hbefore Hat.
  pose proof (accepted_run_le replies n len) as Hle.
  destruct (Nat.lt_trichotomy (accepted_run replies n len) j) as [H | [H | H]].
  - assert (Hlt : (accepted_run replies n len < len)%nat) by lia.
    apply accepted_run_stop in Hlt. rewrite Hbefore in Hlt by exact H.
    discriminate.
  - exact H.
  - pose proof (accepted_run_before replies n len j H) as Hacc.
    rewrite Hat in Hacc by lia. discriminate.
Qed.

Lemma firstn_range m n :
  (m <= Z.to_nat n)%nat -> firstn m (range n) = range (Z.of_nat m).
Proof.
  intros H. unfold range. rewrite firstn_map, Nat2Z.id. f_equal.
  replace (Z.to_nat n) with (m + (Z.to_nat n - m))%nat by lia.
  rewrite seq_app, firstn_app, length_seq, Nat.sub_diag, firstn_O, app_nil_r.
  apply firstn_all2. rewrite length_seq. lia.
Qed.

Lemma sent_bytes_app t1 t2 :
  sent_bytes (t1 ++ t2) = (sent_bytes t1 ++ sent_bytes t2)%list.
Proof.
  induction t1 as [| req rest IH]; simpl; trivial.
  destruct (req_body req); trivial. now rewrite IH, app_assoc.
Qed.

Section Close.

Variable encodeURIComponent : Value -> string.

#[local] Abbreviation patch_request := (Upload.patch_request encodeURIComponent).
#[local] Abbreviation finalize_request :=
  (Upload.finalize_request encodeURIComponent).
#[local] Abbreviation completeUpload := (Upload.completeUpload encodeURIComponent).
#[local] Abbreviation _final := (Upload._final encodeURIComponent).
#[local] Abbreviation plan := (plan encodeURIComponent).

Lemma sent_bytes_patches this indices :
  sent_bytes (map (patch_request this) indices)
  = List.concat (map (Upload.chunk this) indices).
Proof.
  induction indices as [| i rest IH]; simpl; trivial. now rewrite IH.
Qed.

(** X1.  [_final] issues the requests of [completeUpload].  When the
    close succeeds it calls the callback of the stream with [null], once if
    that call returns; when the close fails with [err] it calls the
    callback exactly once, with [err]. *)
Theorem final_reports_the_close this callback replies :
  requests (_final this callback) replies
  = requests (completeUpload this) replies
  /\ (settlement (completeUpload this) replies = inr tt ->
      hd_error (callbacks (_final this callback) replies) = Some None
      /\ (callback None = None ->
          callbacks (_final this callback) replies = [None]))
  /\ (forall err,
        settlement (completeUpload this) replies = inl err ->
        callbacks (_final this callback) replies = [Some err]).
Proof.
  unfold callbacks, requests, settlement, Upload._final.
  rewrite run_then_catch. cbn [fst snd].
  split; [reflexivity | split].
  - intros ->. destruct (callback None); split; trivial; discriminate.
  - now intros err ->.
Qed.

(** X2.  A close succeeds exactly when the PATCH of every chunk and the
    finalize POST are all answered with success. *)
Theorem close_succeeds_iff_all_accepted this replies :
  settlement (completeUpload this) replies = inr tt
  <-> forall j, (j <= Z.to_nat (Upload.chunks this))%nat ->
        accepted (replies j) = true.
Proof.
  pose proof (settlement_completeUpload encodeURIComponent this replies) as S.
  cbv zeta in S. rewrite S. clear S.
  set (count := Z.to_nat (Upload.chunks this)).
  pose proof (accepted_run_le replies 0 count) as Hle.
  split.
  - intros H j Hj.
    destruct (accepted (replies (accepted_run replies 0 count))) eqn:E;
      [| discriminate].
    assert (K : accepted_run replies 0 count = count).
    { destruct (Nat.eq_dec (accepted_run replies 0 count) count) as [K | K];
        trivial.
      assert (Hlt : (accepted_run replies 0 count < count)%nat) by lia.
      apply accepted_run_stop in Hlt. simpl in Hlt. congruence. }
    destruct (Nat.eq_dec j count) as [-> | Hne].
    + now rewrite K in E.
    + apply (accepted_run_before replies 0 count j). lia.
  - intros H.
    rewrite (accepted_run_all replies 0 count) by (intros j Hj; apply H; lia).
    now rewrite H.
Qed.

(** X3.  When the first answer that is not a success is the answer number
    [j] of a close, the close fails.  If the answer is a response whose
    text is [text], the error is an [Error] whose message is that text
    after [Failed to patch upload range for upload: ] when the answer is to
    a chunk PATCH, and after [Failed to finalize POST for upload: ] when it
    is to the finalize POST.  If the call itself was rejected, the close
    fails with that rejection. *)
Theorem close_error_names_the_step this replies j :
  (j <= Z.to_nat (Upload.chunks this))%nat ->
  (forall i, (i < j)%nat -> accepted (replies i) = true) ->
  (forall res text,
     replies j = Fulfilled res -> ok res = false -> res_text res = inr text ->
     settlement (completeUpload this) replies
     = inl (Error ((if (j <? Z.to_nat (Upload.chunks this))%nat
                    then "Failed to patch upload range for upload: "
                    else "Failed to finalize POST for upload: ") ++ text)))
  /\ (forall t,
        replies j = Rejected t ->
        settlement (completeUpload this) replies = inl (Foreign t)).
Proof.
  intros Hj Hbefore.
  pose proof (settlement_completeUpload encodeURIComponent this replies) as S.
  cbv zeta in S.
  assert (K : accepted (replies j) = false ->
              accepted_run replies 0 (Z.to_nat (Upload.chunks this)) = j).
  { intros Hno. apply accepted_run_until; trivial. }
  split.
  - intros res text Hres Hok Htext.
    rewrite K in S by (rewrite Hres; exact Hok).
    rewrite Hres in S. cbn [accepted refusal] in S. rewrite Hok, Htext in S.
    rewrite S.
    destruct (Nat.eqb_spec j (Z.to_nat (Upload.chunks this)));
      destruct (Nat.ltb_spec j (Z.to_nat (Upload.chunks this)));
      trivial; lia.
  - intros t Hres.
    rewrite K in S by (now rewrite Hres).
    rewrite Hres in S. exact S.
Qed.

(** X4.  No chunk is empty or longer than [CHUNK_SIZE]: every chunk but the
    last has exactly [CHUNK_SIZE] bytes and the last has the bytes that
    remain. *)
Theorem chunk_sizes this i :
  0 <= i < Upload.chunks this ->
  1 <= buffer_length (Upload.chunk this i) <= Upload.CHUNK_SIZE
  /\ (i < Upload.chunks this - 1 ->
      buffer_length (Upload.chunk this i) = Upload.CHUNK_SIZE)
  /\ (i = Upload.chunks this - 1 ->
      buffer_length (Upload.chunk this i)
      = buffer_length (Upload.data this) - i * Upload.CHUNK_SIZE).
Proof.
  intros Hi. rewrite chunk_length by exact Hi.
  pose proof (chunks_bounds this) as [Hlo Hhi].
  rewrite CHUNK_SIZE_value in *. lia.
Qed.

(** X5.  Closing a sink whose payload is not empty and has at most
    [CHUNK_SIZE] bytes first sends the payload whole in one PATCH, with the
    range [bytes 0-{L-1}/{L}].  When that PATCH is accepted the finalize
    POST with size [L] follows and nothing else is sent; when it is not,
    nothing follows. *)
Theorem small_payload_is_one_chunk this replies :
  0 < buffer_length (Upload.data this) <= Upload.CHUNK_SIZE ->
  exists patch,
    hd_error (requests (completeUpload this) replies) = Some patch
    /\ req_method patch = PATCH
    /\ req_body patch = Octets (Upload.data this)
    /\ header "Content-Range" (req_headers patch)
       = Some ("bytes 0-"
               ++ number_to_string (buffer_length (Upload.data this) - 1)
               ++ "/" ++ number_to_string (buffer_length (Upload.data this)))
    /\ (accepted (replies 0%nat) = true ->
        exists finalize,
          requests (completeUpload this) replies = [patch; finalize]
          /\ req_method finalize = POST
          /\ req_body finalize
             = Stringified
                 (JObject
                    [("size", JNumber (buffer_length (Upload.data this)))]))
    /\ (accepted (replies 0%nat) = false ->
        requests (completeUpload this) replies = [patch]).
Proof.
  intros HL. pose proof (chunks_bounds this) as [Hlo Hhi].
  rewrite CHUNK_SIZE_value in *.
  assert (E : Upload.chunks this = 1) by lia.
  assert (C : Upload.chunk this 0 = Upload.data this).
  { rewrite chunk_bytes by lia. rewrite CHUNK_SIZE_value.
    rewrite Z.min_r by lia. apply bytes_between_all. lia. }
  assert (P : plan this = [patch_request this 0; finalize_request this])
    by (unfold plan; now rewrite E).
  rewrite (requests_completeUpload encodeURIComponent this replies), E, P.
  change (Z.to_nat 1) with 1%nat. cbn [accepted_run].
  exists (patch_request this 0).
  split; [now destruct (accepted (replies 0%nat)) |].
  split; [reflexivity |].
  split; [simpl; now rewrite C |].
  split.
  { simpl. unfold Upload.content_range. rewrite C.
    replace (0 * Upload.CHUNK_SIZE + buffer_length (Upload.data this) - 1)
      with (buffer_length (Upload.data this) - 1) by lia.
    reflexivity. }
  split.
  - intros ->. exists (finalize_request this). now repeat split.
  - now intros ->.
Qed.

(** X6.  The number of chunks is [(L + CHUNK_SIZE - 1) / CHUNK_SIZE] in
    integer division: the least number of chunks of [CHUNK_SIZE] bytes that
    hold the [L] bytes of the payload.  A longer payload never takes fewer
    chunks. *)
Theorem chunk_count_is_least this :
  let L := buffer_length (Upload.data this) in
  Upload.chunks this = (L + Upload.CHUNK_SIZE - 1) / Upload.CHUNK_SIZE
  /\ L <= Upload.chunks this * Upload.CHUNK_SIZE
  /\ (forall n, L <= n * Upload.CHUNK_SIZE -> Upload.chunks this <= n)
  /\ (forall other,
        L <= buffer_length (Upload.data other) ->
        Upload.chunks this <= Upload.chunks other).
Proof.
  intros L. pose proof (chunks_bounds this) as [Hlo Hhi]. fold L in Hlo, Hhi.
  rewrite CHUNK_SIZE_value in *.
  split; [| split; [| split]].
  - pose proof (Z.div_mod (L + 33554432 - 1) 33554432 ltac:(lia)) as E.
    pose proof (Z.mod_pos_bound (L + 33554432 - 1) 33554432 ltac:(lia)) as B.
    lia.
  - lia.
  - intros n Hn. lia.
  - intros other Hother. pose proof (chunks_bounds other) as [Hlo' Hhi'].
    rewrite CHUNK_SIZE_value in *. lia.
Qed.

(** The bytes carried by the requests of a close up to the one at
    position [m]. *)
Lemma sent_bytes_upto this m :
  (m <= Z.to_nat (Upload.chunks this))%nat ->
  sent_bytes (firstn (S m) (plan this))
  = bytes_between (Upload.data this) 0 (Z.of_nat (S m) * Upload.CHUNK_SIZE).
Proof.
  intros Hm. pose proof (chunks_nonneg this) as Hn.
  pose proof (chunks_bounds this) as [_ Hhi].
  destruct (Nat.eq_dec m (Z.to_nat (Upload.chunks this))) as [-> | Hne].
  - rewrite firstn_all2
      by (rewrite (plan_length encodeURIComponent this); lia).
    unfold plan. rewrite sent_bytes_app, sent_bytes_patches. simpl.
    rewrite app_nil_r, chunks_concat. symmetry. apply bytes_between_all.
    rewrite CHUNK_SIZE_value in *. lia.
  - unfold plan. rewrite firstn_app, length_map, range_length.
    replace (S m - Z.to_nat (Upload.chunks this))%nat with 0%nat by lia.
    rewrite firstn_O, app_nil_r, firstn_map, firstn_range by lia.
    rewrite sent_bytes_patches. apply chunks_concat_upto. lia.
Qed.

(** X7.  Whatever the service answers, the bytes a close sends in its PATCH
    calls are, in the order sent, the beginning of the payload: no byte is
    sent twice or out of place.  When every chunk PATCH is accepted they are
    the whole payload. *)
Theorem sent_bytes_are_a_prefix this replies :
  (exists rest,
     Upload.data this
     = (sent_bytes (requests (completeUpload this) replies) ++ rest)%list)
  /\ ((forall j, (j < Z.to_nat (Upload.chunks this))%nat ->
         accepted (replies j) = true) ->
      sent_bytes (requests (completeUpload this) replies)
      = Upload.data this).
Proof.
  rewrite (requests_completeUpload encodeURIComponent this replies).
  pose proof (accepted_run_le replies 0 (Z.to_nat (Upload.chunks this)))
    as Hle.
  rewrite sent_bytes_upto by exact Hle.
  split.
  - unfold bytes_between. rewrite skipn_O.
    eexists. symmetry. apply firstn_skipn.
  - intros H. rewrite (accepted_run_all replies 0) by exact H.
    pose proof (chunks_bounds this) as [_ Hhi].
    pose proof (chunks_nonneg this) as Hn.
    apply bytes_between_all. rewrite CHUNK_SIZE_value in *. lia.
Qed.

(** X8.  Every request of a close, whatever the service answers, is a PATCH
    or a POST to the endpoint of the session the sink was given, under the
    bearer token of the sink and the pinned [Accept] header. *)
Theorem close_requests_are_authorised this replies req :
  In req (requests (completeUpload this) replies) ->
  req_input req
  = str (Upload.url this ++ "_apis/artifactcache/caches/"
         ++ encodeURIComponent (Upload.cacheId this))
  /\ header "Authorization" (req_headers req)
     = Some ("Bearer " ++ Upload.token this)
  /\ header "Accept" (req_headers req)
     = Some "application/json;api-version=6.0-preview.1"
  /\ (req_method req = PATCH \/ req_method req = POST).
Proof.
  intros Hin. apply In_nth_error in Hin as [j Hj].
  apply (requests_issued encodeURIComponent) in Hj as [Hplan _].
  apply (plan_nth encodeURIComponent) in Hplan as [[_ ->] | [_ ->]];
    repeat split; auto.
Qed.

End Close.

(** ** Lookups, further *)

Section Resolve.

Variable encodeURIComponent : Value -> string.

#[local] Abbreviation getMeta := (GithubActionsCache.getMeta encodeURIComponent).
#[local] Abbreviation get := (GithubActionsCache.get encodeURIComponent).
#[local] Abbreviation query_request :=
  (GithubActionsCache.query_request encodeURIComponent).
#[local] Abbreviation storageProvider := (storageProvider encodeURIComponent).

(** What a resolution returns has a usable download location. *)
Lemma getMeta_returns_location cache keys version replies meta :
  settlement (getMeta cache keys version) replies = inr meta ->
  exists res archiveLocation,
    replies 0%nat = Fulfilled res /\ ok res = true
    /\ res_json res = inr meta
    /\ property meta "archiveLocation" = inr archiveLocation
    /\ truthy archiveLocation = true.
Proof.
  rewrite (settlement_getMeta encodeURIComponent), run_getMeta. cbn [snd].
  destruct (replies 0%nat) as [res | t]; [| discriminate].
  destruct (ok res) eqn:Hok; [| discriminate].
  destruct (res_json res) as [t | body] eqn:Hjson; [discriminate |].
  destruct (property body "archiveLocation") as [t | loc] eqn:Hloc;
    [discriminate |].
  destruct (truthy loc) eqn:Htruthy; [| discriminate].
  intros [= <-]. exists res, loc. auto.
Qed.

(** X9.  [exists] issues one request whatever it is answered and whatever
    the callback does: the GET of the cache query for the artifact path and
    version 10, under the bearer token.  It never fetches the blob. *)
Theorem exists_issues_one_query cache artifactPath cb replies :
  requests (exists_ (storageProvider cache) artifactPath cb) replies
  = [ {| req_input :=
           str (GithubActionsCache.url cache
                ++ "_apis/artifactcache/cache?keys="
                ++ encodeURIComponent (str artifactPath)
                ++ "&version=" ++ encodeURIComponent (str "10"));
         req_method := GET;
         req_headers :=
           [ ("Accept", "application/json;api-version=6.0-preview.1");
             ("Authorization",
              "Bearer " ++ GithubActionsCache.token cache) ];
         req_body := NoBody |} ].
Proof.
  unfold requests, storageProvider. cbn [exists_].
  rewrite run_then_catch, run_getMeta. reflexivity.
Qed.

(** X10.  A resolution fails with [NotFoundError] exactly when the query is
    answered with a response that is not [ok], or with a response whose
    body was read and gives a falsy [archiveLocation].  It succeeds exactly
    when the response is [ok] and its body gives a truthy
    [archiveLocation]; it then returns that body.  A query that is
    rejected, as when the service cannot be reached, fails the resolution
    with the rejection, not with a [NotFoundError]. *)
Theorem resolution_outcomes cache keys version replies :
  (settlement (getMeta cache keys version) replies = inl NotFoundError
   <-> exists res,
         replies 0%nat = Fulfilled res
         /\ (ok res = false
             \/ exists body archiveLocation,
                  res_json res = inr body
                  /\ property body "archiveLocation" = inr archiveLocation
                  /\ truthy archiveLocation = false))
  /\ (forall meta,
        settlement (getMeta cache keys version) replies = inr meta
        <-> exists res archiveLocation,
              replies 0%nat = Fulfilled res /\ ok res = true
              /\ res_json res = inr meta
              /\ property meta "archiveLocation" = inr archiveLocation
              /\ truthy archiveLocation = true)
  /\ (forall t,
        replies 0%nat = Rejected t ->
        settlement (getMeta cache keys version) replies = inl (Foreign t)).
Proof.
  rewrite (settlement_getMeta encodeURIComponent), run_getMeta. cbn [snd].
  split; [| split].
  - split.
    + destruct (replies 0%nat) as [res | t]; [| discriminate].
      intros H. exists res. split; trivial.
      destruct (ok res); [| now left]. right.
      destruct (res_json res) as [t | body]; [discriminate |].
      destruct (property body "archiveLocation") as [t | loc] eqn:Hloc;
        [discriminate |].
      destruct (truthy loc) eqn:E; [discriminate |].
      exists body, loc. auto.
    + intros (res & -> & [-> | (body & loc & -> & -> & ->)]); trivial.
      now destruct (ok res).
  - intros meta. split.
    + destruct (replies 0%nat) as [res | t]; [| discriminate].
      destruct (ok res) eqn:Hok; [| discriminate].
      destruct (res_json res) as [t | body] eqn:Hjson; [discriminate |].
      destruct (property body "archiveLocation") as [t | loc] eqn:Hloc;
        [discriminate |].
      destruct (truthy loc) eqn:E; [| discriminate].
      intros [= <-]. exists res, loc. auto.
    + now intros (res & loc & -> & -> & -> & -> & ->).
  - now intros t ->.
Qed.

(** X11.  When the resolution fails, [get] fails with the same error, a
    [NotFoundError] on a miss, and issues no request beyond the query: the
    blob is not fetched. *)
Theorem get_stops_at_a_failed_resolution cache keys version replies err :
  settlement (getMeta cache keys version) replies = inl err ->
  settlement (get cache keys version) replies = inl err
  /\ requests (get cache keys version) replies
     = [query_request cache keys version].
Proof.
  intros H. unfold requests, settlement at 1.
  now rewrite (run_get encodeURIComponent), H.
Qed.

(** X12.  When the resolution succeeds and the GET of the location is
    answered with an [ok] response that has a body, [get] returns that
    body.  It has issued two requests: the query, and a GET of the
    [archiveLocation] of the resolution that carries no header, so that the
    bearer token is not sent to the location. *)
Theorem get_returns_the_blob cache keys version replies meta res body :
  settlement (getMeta cache keys version) replies = inr meta ->
  replies 1%nat = Fulfilled res ->
  ok res = true ->
  res_body res = Some body ->
  settlement (get cache keys version) replies = inr body
  /\ exists archiveLocation,
       property meta "archiveLocation" = inr archiveLocation
       /\ requests (get cache keys version) replies
          = [ query_request cache keys version;
              {| req_input := archiveLocation;
                 req_method := GET;
                 req_headers := [];
                 req_body := NoBody |} ].
Proof.
  intros Hmeta Hres Hok Hbody.
  destruct (getMeta_returns_location _ _ _ _ _ Hmeta)
    as (_ & loc & _ & _ & _ & Hloc & _).
  pose proof (run_get encodeURIComponent cache keys version replies) as R.
  rewrite Hmeta, Hloc, Hres, Hbody, Hok in R.
  unfold requests, settlement. rewrite R. cbn [fst snd].
  split; [reflexivity |]. exists loc. split; [exact Hloc | reflexivity].
Qed.

(** X13.  On the same answer to the query, [exists] reports that the
    artifact exists exactly when [createReadStream] goes on to fetch the
    blob. *)
Theorem exists_agrees_with_read cache artifactPath cb replies :
  hd_error
    (callbacks (exists_ (storageProvider cache) artifactPath cb) replies)
  = Some (None, Some true)
  <-> List.length
        (requests (createReadStream (storageProvider cache) artifactPath)
           replies)
      = 2%nat.
Proof.
  rewrite (callbacks_exists encodeURIComponent).
  unfold requests, storageProvider. cbn [createReadStream].
  rewrite (run_get encodeURIComponent).
  destruct (settlement (getMeta cache [artifactPath] VERSION) replies)
    as [err | meta] eqn:Hmeta.
  - cbn [fst List.length hd_error]. split; [| discriminate].
    unfold exists_rejected.
    destruct (instanceof_NotFoundError err); discriminate.
  - destruct (getMeta_returns_location _ _ _ _ _ Hmeta)
      as (_ & loc & _ & _ & _ & -> & _).
    cbn [fst List.length]. split; trivial. intros _.
    now destruct (cb (None, Some true)).
Qed.

End Resolve.

(** ** Stores, further *)

Section Store.

Variable encodeURIComponent : Value -> string.

#[local] Abbreviation completeUpload := (Upload.completeUpload encodeURIComponent).
#[local] Abbreviation _final := (Upload._final encodeURIComponent).
#[local] Abbreviation storageProvider := (storageProvider encodeURIComponent).

(** X14.  No failure of a reservation and no failure of a close is a
    [NotFoundError]: a store that fails is never taken for a cache miss. *)
Theorem store_errors_are_not_misses cache key version this replies err :
  settlement (GithubActionsCache.upload cache key version) replies = inl err
  \/ settlement (completeUpload this) replies = inl err ->
  instanceof_NotFoundError err = false.
Proof.
  intros [H | H].
  - unfold settlement in H. rewrite run_upload in H. cbn [snd] in H.
    destruct (replies 0%nat) as [res | t]; [| now injection H as <-].
    destruct (ok res).
    + destruct (res_json res) as [t | body]; [now injection H as <- |].
      destruct (property body "cacheId"); [now injection H as <- |].
      discriminate.
    + destruct (res_text res); now injection H as <-.
  - pose proof (settlement_completeUpload encodeURIComponent this replies)
      as S.
    cbv zeta in S. rewrite S in H. clear S.
    destruct (accepted _); [discriminate |].
    injection H as <-. unfold refusal.
    destruct (replies _) as [res | t]; trivial.
    now destruct (res_text res).
Qed.

(** X15.  The sink that a sequence of writes leaves depends on the bytes
    written, not on how they were split into chunks: two sequences with
    the same bytes leave the same sink, which closes with the same
    requests. *)
Theorem writes_depend_on_bytes_only this written written' replies n :
  List.concat written = List.concat written' ->
  exists sink,
    run (write_all this written) replies n
    = ([], inr (sink, map (fun _ => None) written))
    /\ run (write_all this written') replies n
       = ([], inr (sink, map (fun _ => None) written')).
Proof.
  intros E. rewrite !run_write_all, E. eauto.
Qed.

(** X16.  A store from start to end, against a service that accepts the
    reservation with a body that gives [cacheId] and then accepts every
    call: asking the provider for a write destination, writing chunks to
    it and ending the stream issues the reservation POST for the artifact
    path and version 10, then the PATCH of every chunk of the bytes
    written, then the finalize POST with their number as size, all under
    the [cacheId] the reservation gave; and the close reports success to
    the callback of the stream. *)
Theorem store_end_to_end cache artifactPath written callback replies
    res members id :
  replies 0%nat = Fulfilled res ->
  ok res = true ->
  res_json res = inr (JObject members) ->
  member "cacheId" members = Some id ->
  (forall j, accepted (replies (S j)) = true) ->
  let store :=
    (sink <- createWriteStream (storageProvider cache) artifactPath ;;
     w <- write_all sink written ;;
     _final (fst w) callback)%async in
  let filled :=
    {| Upload.cacheId := Some id;
       Upload.url := GithubActionsCache.url cache;
       Upload.token := GithubActionsCache.token cache;
       Upload.data := List.concat written |} in
  let reserve :=
    {| req_input :=
         str (GithubActionsCache.url cache ++ "_apis/artifactcache/caches");
       req_method := POST;
       req_headers :=
         [ ("Accept", "application/json;api-version=6.0-preview.1");
           ("Content-Type", "application/json");
           ("Authorization", "Bearer " ++ GithubActionsCache.token cache) ];
       req_body :=
         Stringified
           (JObject [("key", JString artifactPath);
                     ("version", JString "10")]) |} in
  let finalize :=
    {| req_input :=
         str (GithubActionsCache.url cache ++ "_apis/artifactcache/caches/"
              ++ encodeURIComponent (Some id));
       req_method := POST;
       req_headers :=
         [ ("Accept", "application/json;api-version=6.0-preview.1");
           ("Content-Type", "application/json");
           ("Authorization", "Bearer " ++ GithubActionsCache.token cache) ];
       req_body :=
         Stringified
           (JObject
              [("size", JNumber (buffer_length (List.concat written)))]) |} in
  requests store replies
  = reserve
    :: (map (Upload.patch_request encodeURIComponent filled)
          (range (Upload.chunks filled))
        ++ [finalize])%list
  /\ hd_error (callbacks store replies) = Some None.
Proof.
  intros Hres Hok Hjson Hid Hall store filled reserve finalize.
  assert (R : run store replies 0
              = (GithubActionsCache.reserve_request cache artifactPath VERSION
                 :: fst (run (_final filled callback) (later 1 replies) 0),
                 snd (run (_final filled callback) (later 1 replies) 0))).
  { unfold store, storageProvider. cbn [createWriteStream].
    rewrite run_bind, run_upload, Hres, Hok, Hjson. cbn [property].
    rewrite Hid. rewrite run_bind, run_write_all. cbn [fst List.length].
    change (0 + 1 + 0)%nat with (0 + 1)%nat. rewrite run_later.
    unfold Upload.new, Buffer_of. cbn [Upload.cacheId Upload.url Upload.token
      Upload.data app].
    fold filled.
    now destruct (run (_final filled callback) (later 1 replies) 0). }
  assert (Hacc : forall j, accepted (later 1 replies j) = true).
  { intros j. unfold later. rewrite Nat.add_1_r. apply Hall. }
  unfold callbacks, requests, settlement. rewrite R. cbn [fst snd].
  unfold Upload._final. rewrite run_then_catch. cbn [fst snd].
  split.
  - f_equal.
    apply (requests_when_chunks_accepted encodeURIComponent filled
             (later 1 replies)).
    intros j req _ _. apply Hacc.
  - pose proof (settlement_completeUpload encodeURIComponent filled
                  (later 1 replies)) as S.
    cbv zeta in S. rewrite Hacc in S. unfold settlement in S. rewrite S.
    now destruct (callback None).
Qed.

(** X17.  A provider built from the environment sends its requests to the
    service at [ACTIONS_CACHE_URL] under the bearer token
    [ACTIONS_RUNTIME_TOKEN]: [exists] and [createReadStream] start with the
    query of that client and [createWriteStream] with its reservation. *)
Theorem provider_uses_the_environment env provider :
  createGithubActionsCache encodeURIComponent env = inr provider ->
  exists url token,
    env "ACTIONS_CACHE_URL" = Some url
    /\ env "ACTIONS_RUNTIME_TOKEN" = Some token
    /\ forall artifactPath replies,
         let client :=
           {| GithubActionsCache.url := url;
              GithubActionsCache.token := token |} in
         (forall cb,
            requests (exists_ provider artifactPath cb) replies
            = [GithubActionsCache.query_request encodeURIComponent client
                 [artifactPath] VERSION])
         /\ hd_error (requests (createReadStream provider artifactPath) replies)
            = Some (GithubActionsCache.query_request encodeURIComponent client
                      [artifactPath] VERSION)
         /\ requests (createWriteStream provider artifactPath) replies
            = [GithubActionsCache.reserve_request client artifactPath VERSION].
Proof.
  unfold createGithubActionsCache.
  pose proof (fromEnv_cases env) as H.
  destruct (GithubActionsCache.fromEnv env) as [err | [url token]];
    [discriminate |].
  cbn [GithubActionsCache.url GithubActionsCache.token] in H.
  destruct H as (Hurl & _ & Htoken & _).
  intros [= <-]. exists url, token. split; [exact Hurl | split; [exact Htoken |]].
  intros artifactPath replies. unfold requests, storageProvider.
  cbn [exists_ createReadStream createWriteStream].
  split; [| split].
  - intros cb. now rewrite run_then_catch, run_getMeta.
  - rewrite (run_get encodeURIComponent).
    destruct (settlement _ replies) as [err | meta]; trivial.
    now destruct (property meta "archiveLocation").
  - now rewrite run_upload.
Qed.

End Store.

(** ** Closes, further *)

Section Count.

Variable encodeURIComponent : Value -> string.

#[local] Abbreviation finalize_request :=
  (Upload.finalize_request encodeURIComponent).
#[local] Abbreviation completeUpload := (Upload.completeUpload encodeURIComponent).

(** X18.  Closing a sink whose payload is empty issues one request whatever
    the service answers, the finalize POST with size 0, and succeeds exactly
    when that request is answered with success. *)
Theorem empty_payload_close this replies :
  Upload.data this = [] ->
  requests (completeUpload this) replies = [finalize_request this]
  /\ req_body (finalize_request this)
     = Stringified (JObject [("size", JNumber 0)])
  /\ (settlement (completeUpload this) replies = inr tt
      <-> accepted (replies 0%nat) = true).
Proof.
  intros E.
  assert (C : Upload.chunks this = 0)
    by (apply chunks_empty; now rewrite E).
  split; [| split].
  - rewrite (requests_completeUpload encodeURIComponent), C.
    unfold plan. now rewrite C.
  - simpl. now rewrite E.
  - pose proof (settlement_completeUpload encodeURIComponent this replies)
      as S.
    cbv zeta in S. rewrite C in S. cbn [Z.to_nat accepted_run] in S.
    rewrite S. destruct (accepted (replies 0%nat)); split; trivial;
      discriminate.
Qed.

(** X19.  A close issues at least one request and at most one more than
    there are chunks; it issues that many, the finalize POST being the last,
    exactly when every chunk PATCH is answered with success. *)
Theorem close_request_count this replies :
  let sent := List.length (requests (completeUpload this) replies) in
  let count := Z.to_nat (Upload.chunks this) in
  (1 <= sent <= S count)%nat
  /\ (sent = S count
      <-> forall j, (j < count)%nat -> accepted (replies j) = true).
Proof.
  intros sent count. unfold sent.
  rewrite (requests_length encodeURIComponent). fold count.
  pose proof (accepted_run_le replies 0 count) as Hle.
  split; [lia |]. split.
  - intros [= K] j Hj.
    apply (accepted_run_before replies 0 count j). lia.
  - intros H. now rewrite (accepted_run_all replies 0 count).
Qed.

End Count.

(** * Concrete runs, further *)

Lemma close_error_names_the_step_witness :
  settlement (Upload.completeUpload Sample.encode Sample.abc)
    Fixture.refusing_finalize
  = inl (Error "Failed to finalize POST for upload: boom").
Proof.
  destruct (close_error_names_the_step Sample.encode Sample.abc
              Fixture.refusing_finalize 1) as [named _].
  - vm_compute. constructor.
  - intros i Hi. assert (i = 0%nat) as -> by lia. reflexivity.
  - apply (named Sample.server_error "boom"); reflexivity.
Defined.

Lemma chunk_sizes_witness :
  1 <= buffer_length (Upload.chunk Sample.abc 0) <= Upload.CHUNK_SIZE
  /\ (0 = Upload.chunks Sample.abc - 1 ->
      buffer_length (Upload.chunk Sample.abc 0)
      = buffer_length (Upload.data Sample.abc) - 0 * Upload.CHUNK_SIZE).
Proof.
  destruct (chunk_sizes Sample.abc 0) as (bounds & _ & last).
  - vm_compute. split; [discriminate | reflexivity].
  - split; [exact bounds | exact last].
Defined.

Lemma small_payload_is_one_chunk_witness :
  exists patch finalize,
    requests (Upload.completeUpload Sample.encode Sample.abc)
      Fixture.accepting
    = [patch; finalize]
    /\ req_body patch = Octets ["a"%byte; "b"%byte; "c"%byte]
    /\ req_method finalize = POST.
Proof.
  destruct (small_payload_is_one_chunk Sample.encode Sample.abc
              Fixture.accepting)
    as (patch & _ & _ & body & _ & followed & _).
  - vm_compute. split; [reflexivity | discriminate].
  - destruct followed as (finalize & whole & post & _); [reflexivity |].
    exists patch, finalize. split; [exact whole | split; [exact body | exact post]].
Defined.

Lemma close_requests_are_authorised_witness :
  header "Authorization"
    (req_headers (Upload.patch_request Sample.encode Sample.abc 0))
  = Some "Bearer secret".
Proof.
  destruct (close_requests_are_authorised Sample.encode Sample.abc
              Fixture.accepting
              (Upload.patch_request Sample.encode Sample.abc 0))
    as (_ & authorised & _).
  - left. reflexivity.
  - exact authorised.
Defined.

Lemma get_stops_at_a_failed_resolution_witness :
  settlement (GithubActionsCache.get Sample.encode Sample.cache ["k"] VERSION)
    (Sample.always Sample.not_found)
  = inl NotFoundError
  /\ requests (GithubActionsCache.get Sample.encode Sample.cache ["k"] VERSION)
       (Sample.always Sample.not_found)
     = [GithubActionsCache.query_request Sample.encode Sample.cache ["k"]
          VERSION].
Proof.
  apply (get_stops_at_a_failed_resolution Sample.encode Sample.cache ["k"]
           VERSION (Sample.always Sample.not_found) NotFoundError).
  reflexivity.
Defined.

Lemma get_returns_the_blob_witness :
  settlement (GithubActionsCache.get Sample.encode Sample.cache ["k"] VERSION)
    (Sample.always Sample.found)
  = inr [].
Proof.
  pose proof (get_returns_the_blob Sample.encode Sample.cache ["k"] VERSION
                (Sample.always Sample.found)
                (JObject
                   [("archiveLocation", JString "https://blob.example/a")])
                Sample.found [] eq_refl eq_refl eq_refl eq_refl)
    as [blob _].
  exact blob.
Defined.

Lemma store_errors_are_not_misses_witness :
  instanceof_NotFoundError (Error "boom") = false.
Proof.
  apply (store_errors_are_not_misses Sample.encode Sample.cache "k" VERSION
           Sample.abc (Sample.always Sample.server_error) (Error "boom")).
  left. reflexivity.
Defined.

Lemma writes_depend_on_bytes_only_witness :
  exists sink,
    run (write_all Sample.abc [["a"%byte]; ["b"%byte; "c"%byte]])
      Fixture.accepting 0
    = ([], inr (sink, [None; None]))
    /\ run (write_all Sample.abc [["a"%byte; "b"%byte; "c"%byte]])
         Fixture.accepting 0
       = ([], inr (sink, [None])).
Proof.
  apply (writes_depend_on_bytes_only Sample.abc
           [["a"%byte]; ["b"%byte; "c"%byte]]
           [["a"%byte; "b"%byte; "c"%byte]] Fixture.accepting 0).
  reflexivity.
Defined.

Lemma store_end_to_end_witness :
  hd_error
    (callbacks
       (sink <- createWriteStream (storageProvider Sample.encode Sample.cache)
                  "k" ;;
        w <- write_all sink [["a"%byte]; ["b"%byte; "c"%byte]] ;;
        Upload._final Sample.encode (fst w) Fixture.done)
       Fixture.accepting)
  = Some None.
Proof.
  pose proof (store_end_to_end Sample.encode Sample.cache "k"
                [["a"%byte]; ["b"%byte; "c"%byte]] Fixture.done
                Fixture.accepting Sample.reserved [("cacheId", JNumber 7)]
                (JNumber 7) eq_refl eq_refl eq_refl eq_refl
                (fun _ => eq_refl))
    as H.
  cbv zeta in H. destruct H as [_ reported].
  exact reported.
Defined.

Lemma provider_uses_the_environment_witness :
  exists url token,
    Sample.env "ACTIONS_CACHE_URL" = Some url
    /\ Sample.env "ACTIONS_RUNTIME_TOKEN" = Some token.
Proof.
  destruct (provider_uses_the_environment Sample.encode Sample.env
              (storageProvider Sample.encode Sample.cache))
    as (url & token & Hurl & Htoken & _).
  - reflexivity.
  - exists url, token. split; [exact Hurl | exact Htoken].
Defined.

Lemma empty_payload_close_witness :
  requests
    (Upload.completeUpload Sample.encode
       (Upload.new (Some (JNumber 7)) "https://cache.example/" "secret"))
    Fixture.unreachable
  = [Upload.finalize_request Sample.encode
       (Upload.new (Some (JNumber 7)) "https://cache.example/" "secret")].
Proof.
  destruct (empty_payload_close Sample.encode
              (Upload.new (Some (JNumber 7)) "https://cache.example/" "secret")
              Fixture.unreachable)
    as [only _].
  - reflexivity.
  - exact only.
Defined.

(** C4, as it is stated, fails for a success response whose body is
    [null]: the body has no member [archiveLocation], yet reading the member
    off it throws, the resolution fails with that TypeError and not with
    [NotFoundError], and [exists] reports the error. *)
Lemma null_body_is_not_a_miss :
  status Fixture.null_body < 400
  /\ res_json Fixture.null_body = inr JNull
  /\ settlement
       (GithubActionsCache.getMeta Sample.encode Sample.cache ["k"] VERSION)
       (Sample.always Fixture.null_body)
     = inl (Foreign
              {| thrown_name := "TypeError";
                 thrown_message :=
                   "Cannot read properties of null (reading 'archiveLocation')"
              |})
  /\ settlement
       (GithubActionsCache.getMeta Sample.encode Sample.cache ["k"] VERSION)
       (Sample.always Fixture.null_body)
     <> inl NotFoundError
  /\ callbacks
       (exists_ (storageProvider Sample.encode Sample.cache) "k" Sample.quiet)
       (Sample.always Fixture.null_body)
     = [(Some
           (Foreign
              {| thrown_name := "TypeError";
                 thrown_message :=
                   "Cannot read properties of null (reading 'archiveLocation')"
              |}),
         Some false)].
Proof.
  split; [reflexivity |]. split; [reflexivity |]. split; [reflexivity |].
  split; [discriminate | reflexivity].
Qed.

(** C8, as it is stated, fails for a success response to the reservation
    whose body gives no [cacheId]: a sink is returned although no session
    identifier was given, and the sink holds [undefined]. *)
Lemma reservation_without_id_gives_a_sink :
  ok Fixture.reserved_without_id = true
  /\ property (JObject []) "cacheId" = inr undefined
  /\ settlement
       (createWriteStream (storageProvider Sample.encode Sample.cache) "k")
       (Sample.always Fixture.reserved_without_id)
     = inr {| Upload.cacheId := undefined;
              Upload.url := "https://cache.example/";
              Upload.token := "secret";
              Upload.data := [] |}.
Proof. repeat split. Qed.
